(** * locustfile.py: the traffic generator of the key-value cache load test

    A shallow embedding of [src/locustfile.py] (the live definitions, lines
    38-82; lines 1-36 are a commented-out earlier version) and of the few
    routines of the Python standard library it calls ([random.random],
    [random.choice], [random.choices], [uuid.uuid4], [str(UUID)],
    [string.printable]), which follow CPython's [Lib/random.py],
    [Lib/uuid.py] and [Lib/string.py].

    - Python [str] is [string]; a JSON body (a Python [dict] with string keys
      and values) is a [gmap string string].
    - Randomness is an interface, [Entropy]: the state of the generators with
      the documented range of every draw.  Theorems hold for every
      implementation of the interface; [Tape] is an executable one.
    - Effects are threaded by a monad [M] of state, output and exceptions:
      the state, [World], holds the class attributes of [CacheUser] and the
      entropy source; the output is the list of events of a computation,
      the draws it made and the requests it handed to an HTTP client.
    - Virtual users are greenlets: a task body runs without interruption up
      to its network call, which is its last action.  A run of the harness is
      therefore a sequence of whole invocations of [mixed_load], by any users
      in any order ([run_schedule]). *)

From Stdlib Require Import QArith Qround ZArith NArith Lia Ascii String.
From Stdlib.Strings Require Import Byte.
From stdpp Require Import base list strings gmap.

Local Open Scope string_scope.

(** ** Python values and exceptions *)

Inductive Exn : Type :=
| IndexError
| ValueError.

Inductive Result (A : Type) : Type :=
| Raised (e : Exn)
| Returned (a : A).
Arguments Raised {A} e.
Arguments Returned {A} a.

(** [seq[i]] on a Python list: a negative index counts from the end, an index
    out of range raises [IndexError]. *)
Definition getitem {A} (seq : list A) (i : Z) : Result A :=
  let n := Z.of_nat (length seq) in
  let i' := if (i <? 0)%Z then (i + n)%Z else i in
  if (i' <? 0)%Z then Raised IndexError
  else match seq !! Z.to_nat i' with
       | Some x => Returned x
       | None => Raised IndexError
       end.

(** A Python float in the unit interval is a dyadic rational and comparison of
    floats is exact, so such a float is modelled by its value in [Q]. *)
Definition float_lt (x y : Q) : bool :=
  if Qlt_le_dec x y then true else false.

(** ** Sources of randomness

    [random_random] is [random.random()], [random_randbelow n] is
    [Random._randbelow(n)] (the index draw behind [random.choice]) and
    [os_urandom n] is [os.urandom(n)] (the bytes behind [uuid.uuid4]). *)
Class Entropy (G : Type) : Type := {
  random_random : G → Q * G;
  random_randbelow : nat → G → nat * G;
  os_urandom : nat → G → list byte * G;
  random_random_range : ∀ g, (0 <= (random_random g).1)%Q ∧ ((random_random g).1 < 1)%Q;
  random_randbelow_range : ∀ n g, 0 < n → (random_randbelow n g).1 < n;
  os_urandom_length : ∀ n g, length (os_urandom n g).1 = n
}.

(** An executable source: an infinite tape of raw words read from a cursor.
    A float draw is the 53-bit fraction of the word, an index draw is the
    word reduced into range, a byte string is the base-256 digits of the
    word. *)
Record Tape : Type := { tape_words : nat → N; tape_pos : nat }.

Definition tape_next (t : Tape) : N * Tape :=
  (tape_words t (tape_pos t),
   {| tape_words := tape_words t; tape_pos := S (tape_pos t) |}).

Definition byte_of_N (n : N) : byte :=
  match Byte.of_N (n mod 256) with Some b => b | None => x00 end.

Fixpoint bytes_of_N (k : nat) (n : N) : list byte :=
  match k with
  | O => []
  | S k' => bytes_of_N k' (n / 256) ++ [byte_of_N n]
  end.

Definition fraction53 (w : N) : Q := Z.of_N (w mod 2 ^ 53) # 2 ^ 53.

Definition tape_random (t : Tape) : Q * Tape :=
  let (w, t') := tape_next t in
  (fraction53 w, t').

Definition tape_randbelow (n : nat) (t : Tape) : nat * Tape :=
  let (w, t') := tape_next t in
  (N.to_nat (w mod N.of_nat n), t').

Definition tape_urandom (k : nat) (t : Tape) : list byte * Tape :=
  let (w, t') := tape_next t in
  (bytes_of_N k w, t').

#[export] Instance tape_entropy : Entropy Tape.
Proof.
  refine {| random_random := tape_random;
            random_randbelow := tape_randbelow;
            os_urandom := tape_urandom |}.
  - intros t. unfold tape_random, tape_next; cbn [fst].
    generalize (tape_words t (tape_pos t)); intros w.
    assert (Hw : (w mod 2 ^ 53 < 2 ^ 53)%N) by (apply N.mod_upper_bound; discriminate).
    unfold fraction53, Qle, Qlt; cbn [Qnum Qden].
    change (Z.pos (2 ^ 53)) with (Z.of_N (2 ^ 53)).
    revert Hw; generalize (w mod 2 ^ 53)%N; generalize (2 ^ 53)%N; lia.
  - intros n t Hn. unfold tape_randbelow, tape_next; cbn [fst].
    pose proof (N.mod_upper_bound (tape_words t (tape_pos t)) (N.of_nat n)). lia.
  - intros k t. unfold tape_urandom, tape_next; cbn [fst].
    generalize (tape_words t (tape_pos t)).
    induction k as [|k IH]; intros n; simpl; [done|].
    rewrite length_app, IH; simpl; lia.
Defined.

(** ** The [string] and [uuid] modules *)

Definition chr (n : nat) : string := String (ascii_of_nat n) EmptyString.

Definition string_digits : string := "0123456789".
Definition string_ascii_lowercase : string := "abcdefghijklmnopqrstuvwxyz".
Definition string_ascii_uppercase : string := "ABCDEFGHIJKLMNOPQRSTUVWXYZ".
Definition string_ascii_letters : string :=
  string_ascii_lowercase ++ string_ascii_uppercase.
(** The punctuation characters, codes 33-47, 58-64, 91-96 and 123-126. *)
Definition string_punctuation : string :=
  "!" ++ chr 34 ++ "#$%&'()*+,-./:;<=>?@[\]^_`{|}~".
(** Space, tab, line feed, carriage return, vertical tab, form feed. *)
Definition string_whitespace : string :=
  " " ++ chr 9 ++ chr 10 ++ chr 13 ++ chr 11 ++ chr 12.
Definition string_printable : string :=
  string_digits ++ string_ascii_letters ++ string_punctuation ++ string_whitespace.

(** A [str] seen as a sequence: its one-character strings. *)
Definition str_seq (s : string) : list string :=
  (λ c, String c EmptyString) <$> list_ascii_of_string s.

(** [sep.join(parts)] *)
Fixpoint str_join (sep : string) (parts : list string) : string :=
  match parts with
  | [] => EmptyString
  | [p] => p
  | p :: ps => p ++ sep ++ str_join sep ps
  end.

(** [s[a:b]] for [0 <= a <= b]. *)
Definition str_slice (s : string) (a b : nat) : string := substring a (b - a) s.

(** [int.from_bytes(bytes)], big-endian. *)
Definition int_from_bytes (bytes : list byte) : Z :=
  fold_left (λ acc b, (acc * 256 + Z.of_N (Byte.to_N b))%Z) bytes 0%Z.

Definition hexdigit (d : Z) : ascii :=
  nth (Z.to_nat d) (list_ascii_of_string "0123456789abcdef") "0"%char.

Fixpoint hex_acc (w : nat) (n : Z) (acc : string) : string :=
  match w with
  | O => acc
  | S w' => hex_acc w' (n / 16) (String (hexdigit (n mod 16)) acc)
  end.

(** ['%032x' % n] for [0 <= n < 16 ^ 32]: the 32 hexadecimal digits of [n],
    most significant first.  [UUID] only formats its [int], which its
    constructor keeps in that range. *)
Definition format_032x (n : Z) : string := hex_acc 32 n EmptyString.

(** [UUID(bytes=bytes, version=version).int] *)
Definition UUID (bytes : list byte) (version : Z) : Result Z :=
  if negb (Nat.eqb (length bytes) 16) then Raised ValueError
  else
    let int := int_from_bytes bytes in
    if negb ((0 <=? int) && (int <? Z.shiftl 1 128))%Z then Raised ValueError
    else if negb ((1 <=? version) && (version <=? 8))%Z then Raised ValueError
    else
      let int := Z.land int (Z.lnot (Z.shiftl 0xc000 48)) in
      let int := Z.lor int (Z.shiftl 0x8000 48) in
      let int := Z.land int (Z.lnot (Z.shiftl 0xf000 64)) in
      let int := Z.lor int (Z.shiftl version 76) in
      Returned int.

(** [str(u)] for a UUID with integer value [int]. *)
Definition UUID_str (int : Z) : string :=
  let hex := format_032x int in
  str_slice hex 0 8 ++ "-" ++ str_slice hex 8 12 ++ "-" ++ str_slice hex 12 16
  ++ "-" ++ str_slice hex 16 20 ++ "-" ++ str_slice hex 20 (String.length hex).

(** ** HTTP requests handed to the harness *)

Inductive Method : Type := GET | POST.

Record Request : Type := {
  method : Method;
  url : string;
  json : option (gmap string string);
  name : string
}.

(** A virtual user, [self]: the harness creates many, each with its own
    client. *)
Record User : Type := { user_id : nat }.

(** Settings of the module (lines 47-49). *)
Record Settings : Type := {
  KEY_POOL_SIZE : N;
  VALUE_LENGTH : N;
  PUT_RATIO : Q
}.

Definition module_settings : Settings :=
  {| KEY_POOL_SIZE := 10000; VALUE_LENGTH := 256; PUT_RATIO := 1 # 2 |}.

(** ** The world and the monad of effects *)

(** The outcome of one draw from the entropy source. *)
Inductive Draw : Type :=
| Float (u : Q)
| Index (n i : nat)
| Bytes (bs : list byte).

(** What a computation does to its environment, in order: it draws, and it
    hands requests to the HTTP client of a user. *)
Inductive Event : Type :=
| Drew (d : Draw)
| Sent (self : User) (r : Request).

Definition sent (e : Event) : option Request :=
  match e with Sent _ r => Some r | Drew _ => None end.

Definition drew (e : Event) : option Draw :=
  match e with Drew d => Some d | Sent _ _ => None end.

(** The requests, and the draws, of a list of events. *)
Definition requests (evs : list Event) : list Request := omap sent evs.
Definition draws (evs : list Event) : list Draw := omap drew evs.

Section Generator.
Context {G : Type} `{Entropy G}.

(** [key_pool] and [value_pool] are the class attributes of [CacheUser],
    shared by all its instances. *)
Record World : Type := {
  key_pool : list string;
  value_pool : list string;
  entropy : G
}.

Record Outcome (A : Type) : Type := {
  final : World;
  events : list Event;
  result : Result A
}.
Arguments final {A} o.
Arguments events {A} o.
Arguments result {A} o.

Definition M (A : Type) : Type := World → Outcome A.

#[export] Instance M_ret : MRet M := λ A a w,
  {| final := w; events := []; result := Returned a |}.

#[export] Instance M_bind : MBind M := λ A B f m w,
  let o := m w in
  match result o with
  | Returned a =>
      let o' := f a (final o) in
      {| final := final o'; events := events o ++ events o'; result := result o' |}
  | Raised e => {| final := final o; events := events o; result := Raised e |}
  end.

Definition raise {A} (e : Exn) : M A := λ w,
  {| final := w; events := []; result := Raised e |}.

Definition lift {A} (r : Result A) : M A := λ w,
  {| final := w; events := []; result := r |}.

Definition set_entropy (g : G) (w : World) : World :=
  {| key_pool := key_pool w; value_pool := value_pool w; entropy := g |}.

Definition draw_random : M Q := λ w,
  let (u, g) := random_random (entropy w) in
  {| final := set_entropy g w; events := [Drew (Float u)]; result := Returned u |}.

Definition draw_randbelow (n : nat) : M nat := λ w,
  let (i, g) := random_randbelow n (entropy w) in
  {| final := set_entropy g w; events := [Drew (Index n i)]; result := Returned i |}.

Definition draw_urandom (n : nat) : M (list byte) := λ w,
  let (bs, g) := os_urandom n (entropy w) in
  {| final := set_entropy g w; events := [Drew (Bytes bs)]; result := Returned bs |}.

Definition get_key_pool : M (list string) := λ w,
  {| final := w; events := []; result := Returned (key_pool w) |}.

Definition get_value_pool : M (list string) := λ w,
  {| final := w; events := []; result := Returned (value_pool w) |}.

Definition set_key_pool (pool : list string) : M () := λ w,
  {| final := {| key_pool := pool; value_pool := value_pool w; entropy := entropy w |};
     events := []; result := Returned () |}.

Definition set_value_pool (pool : list string) : M () := λ w,
  {| final := {| key_pool := key_pool w; value_pool := pool; entropy := entropy w |};
     events := []; result := Returned () |}.

(** [self.client.request(method, url, json=json, name=name)]: the request
    is handed to the client of [self]; its response is not looked at. *)
Definition client_request (self : User) (r : Request) : M () := λ w,
  {| final := w; events := [Sent self r]; result := Returned () |}.

Definition client_post (self : User) (url : string)
    (json : gmap string string) (name : string) : M () :=
  client_request self
    {| method := POST; url := url; json := Some json; name := name |}.

Definition client_get (self : User) (url : string) (name : string) : M () :=
  client_request self
    {| method := GET; url := url; json := None; name := name |}.

(** [[body for _ in range(k)]] *)
Fixpoint for_range {A} (k : nat) (body : M A) : M (list A) :=
  match k with
  | O => mret []
  | S k' => x ← body; xs ← for_range k' body; mret (x :: xs)
  end.

(** ** The [random] and [uuid] modules, effectful part *)

(** [random.choice(seq)] *)
Definition random_choice {A} (seq : list A) : M A :=
  if Nat.eqb (length seq) 0 then raise IndexError
  else i ← draw_randbelow (length seq);
       lift (getitem seq (Z.of_nat i)).

(** [random.choices(population, k=k)]: each element is
    [population[floor(random() * n)]] with [n = len(population)].  The
    product is taken exactly, in [Q]; Python rounds it to a float first, so
    that on rare draws, where the product is within rounding of an integer,
    it picks the next element.  Nothing below depends on which element of
    the population is picked. *)
Definition random_choices {A} (population : list A) (k : nat) : M (list A) :=
  let n := inject_Z (Z.of_nat (length population)) in
  for_range k (u ← draw_random;
               lift (getitem population (Qfloor (u * n)))).

(** [uuid.uuid4()] *)
Definition uuid_uuid4 : M Z :=
  bytes ← draw_urandom 16;
  lift (UUID bytes 4).

(** ** locustfile.py *)

(** The body of [class CacheUser] (lines 57-58), run once at import. *)
Definition CacheUser (cfg : Settings) : M () :=
  keys ← for_range (N.to_nat (KEY_POOL_SIZE cfg))
           (u ← uuid_uuid4; mret (UUID_str u));
  set_key_pool keys;;
  values ← for_range (N.to_nat (KEY_POOL_SIZE cfg))
             (cs ← random_choices (str_seq string_printable)
                     (N.to_nat (VALUE_LENGTH cfg));
              mret (str_join EmptyString cs));
  set_value_pool values.

Definition put_request (self : User) : M () :=
  keys ← get_key_pool;
  key ← random_choice keys;
  values ← get_value_pool;
  value ← random_choice values;
  client_post self "/put" {[ "key" := key; "value" := value ]} "/put".

Definition get_request (self : User) : M () :=
  keys ← get_key_pool;
  key ← random_choice keys;
  client_get self ("/get?key=" ++ key) "/get".

Definition mixed_load (cfg : Settings) (self : User) : M () :=
  u ← draw_random;
  if float_lt u (PUT_RATIO cfg) then put_request self else get_request self.

(** ** The harness *)

(** A task that raises is logged by the harness and the user goes on. *)
Definition attempt (task : M ()) : M () := λ w,
  let o := task w in
  {| final := final o; events := events o; result := Returned () |}.

(** The users of [schedule] run their task one after the other. *)
Fixpoint run_schedule (cfg : Settings) (schedule : list User) : M () :=
  match schedule with
  | [] => mret ()
  | self :: rest => attempt (mixed_load cfg self);; run_schedule cfg rest
  end.

(** Start of the process: no class attribute is set yet. *)
Definition boot (g : G) : World :=
  {| key_pool := []; value_pool := []; entropy := g |}.

(** The world once the module is imported. *)
Definition imported (cfg : Settings) (g : G) : World :=
  final (CacheUser cfg (boot g)).

(** The world after the import and the invocations of [schedule]. *)
Definition world_after (cfg : Settings) (g : G) (schedule : list User) : World :=
  final (run_schedule cfg schedule (imported cfg g)).

End Generator.
Arguments World G : clear implicits.
Arguments Outcome G A : clear implicits.
Arguments M G A : clear implicits.
Arguments final {G A} o.
Arguments events {G A} o.
Arguments result {G A} o.

(** * The vocabulary of the properties *)

(** The request of a write and the request of a read. *)
Definition put_of (key value : string) : Request :=
  {| method := POST; url := "/put";
     json := Some {[ "key" := key; "value" := value ]}; name := "/put" |}.

Definition get_of (key : string) : Request :=
  {| method := GET; url := "/get?key=" ++ key; json := None; name := "/get" |}.

(** A computation that leaves the class attributes as they are. *)
Definition preserves_pools {G A} (m : M G A) : Prop :=
  ∀ w, key_pool (final (m w)) = key_pool w
       ∧ value_pool (final (m w)) = value_pool w.

(** The pools of a world are those of [w]. *)
Definition same_pools {G} (w w' : World G) : Prop :=
  key_pool w' = key_pool w ∧ value_pool w' = value_pool w.

#[export] Instance Method_eq_dec : EqDecision Method.
Proof. solve_decision. Defined.

(** The number of requests with a given method. *)
Definition count_method (m : Method) (rs : list Request) : nat :=
  length (filter (λ r, method r = m) rs).

(** [r] carries the key [k]: in the ["key"] field of its body for a write, in
    its query string for a read. *)
Definition carries_key (r : Request) (k : string) : Prop :=
  match method r with
  | POST => ∃ body, json r = Some body ∧ body !! "key" = Some k
  | GET => url r = "/get?key=" ++ k
  end.

(** [r] carries the value [v] in the ["value"] field of its body. *)
Definition carries_value (r : Request) (v : string) : Prop :=
  ∃ body, json r = Some body ∧ body !! "value" = Some v.

(** The byte strings drawn, in order. *)
Definition byte_sample (e : Event) : option (list byte) :=
  match e with Drew (Bytes bs) => Some bs | _ => None end.
Definition samples (evs : list Event) : list (list byte) := omap byte_sample evs.

(** [str(UUID(bytes=bs, version=4))] *)
Definition uuid4_text (bs : list byte) : Result string :=
  match UUID bs 4 with
  | Returned int => Returned (UUID_str int)
  | Raised e => Raised e
  end.

(** Membership in [string.printable]. *)
Definition printable (c : ascii) : Prop := c ∈ list_ascii_of_string string_printable.

(** What the class body makes of a value. *)
Definition value_ok (cfg : Settings) (v : string) : Prop :=
  String.length v = N.to_nat (VALUE_LENGTH cfg)
  ∧ Forall printable (list_ascii_of_string v).

(** The requests of an invocation as a function of the ratio, the pools and
    the draws made. *)
Definition request_of_draws (ratio : Q) (keys values : list string)
    (ds : list Draw) : list Request :=
  match ds with
  | [Float u; Index _ i; Index _ j] =>
      match keys !! i, values !! j with
      | Some key, Some value => if float_lt u ratio then [put_of key value] else []
      | _, _ => []
      end
  | [Float u; Index _ i] =>
      match keys !! i with
      | Some key => if float_lt u ratio then [] else [get_of key]
      | None => []
      end
  | _ => []
  end.

(** [s.partition(sep)]: what is before the first [sep], and what is after it
    when [sep] occurs. *)
Fixpoint str_partition (sep : ascii) (s : string) : string * option string :=
  match s with
  | EmptyString => (EmptyString, None)
  | String c s' =>
      if Ascii.eqb c sep then (EmptyString, Some s')
      else let '(before, after) := str_partition sep s' in (String c before, after)
  end.

(** [s.split(sep)] *)
Fixpoint str_split (sep : ascii) (s : string) : list string :=
  match s with
  | EmptyString => [EmptyString]
  | String c s' =>
      if Ascii.eqb c sep then EmptyString :: str_split sep s'
      else match str_split sep s' with
           | [] => [String c EmptyString]
           | p :: ps => String c p :: ps
           end
  end.

(** A request target as a server reads it: the path before the question
    mark, and after it the parameters, separated by ampersands, each a name
    and a value around an equals sign. *)
Definition url_path (target : string) : string := (str_partition "?" target).1.

Definition query_parameters (query : string) : list (string * string) :=
  (λ p, let '(k, v) := str_partition "=" p in (k, default EmptyString v))
    <$> str_split "&" query.

Definition url_query (target : string) : list (string * string) :=
  match (str_partition "?" target).2 with
  | Some query => query_parameters query
  | None => []
  end.

Definition write_shape (r : Request) : Prop :=
  method r = POST ∧ url r = "/put"
  ∧ ∃ body key value,
      json r = Some body ∧ dom body = {[ "key"; "value" ]}
      ∧ body !! "key" = Some key ∧ body !! "value" = Some value.

Definition read_shape (r : Request) : Prop :=
  method r = GET ∧ json r = None
  ∧ ∃ key, url r = "/get?key=" ++ key
           ∧ url_path (url r) = "/get" ∧ url_query (url r) = [("key", key)].

(** The same two shapes, for a given selection: the request that writes
    [value] under [key], and the request that reads [key]. *)
Definition write_request (key value : string) (r : Request) : Prop :=
  method r = POST ∧ url r = "/put"
  ∧ ∃ body, json r = Some body ∧ dom body = {[ "key"; "value" ]}
            ∧ body !! "key" = Some key ∧ body !! "value" = Some value.

Definition read_request (key : string) (r : Request) : Prop :=
  method r = GET ∧ json r = None ∧ url r = "/get?key=" ++ key
  ∧ url_path (url r) = "/get" ∧ url_query (url r) = [("key", key)].

#[export] Instance Request_eq_dec : EqDecision Request.
Proof. solve_decision. Defined.

(** The number of elements of a pool equal to [x]. *)
Definition occurrences (x : string) (pool : list string) : nat :=
  length (filter (λ y, y = x) pool).

(** An index draw over a pool of [n] elements has the outcomes [0 .. n-1];
    the library draws each with the same probability, and draws separate
    outcomes independently.  [write_outcomes] counts the outcomes [(i, j)] of
    the two index draws of a write on which the request is [r], and
    [read_outcomes] the outcomes [i] of the index draw of a read on which
    the request is [r]. *)
Definition write_outcomes (ratio : Q) (keys values : list string) (u : Q)
    (r : Request) : nat :=
  length (filter
            (λ ij, request_of_draws ratio keys values
                     [Float u; Index (length keys) ij.1; Index (length values) ij.2]
                   = [r])
            (cprod (seq 0 (length keys)) (seq 0 (length values)))).

Definition read_outcomes (ratio : Q) (keys values : list string) (u : Q)
    (r : Request) : nat :=
  length (filter
            (λ i, request_of_draws ratio keys values [Float u; Index (length keys) i]
                  = [r])
            (seq 0 (length keys))).

(** The characters of the text of a UUID. *)
Definition hexchars : list ascii := list_ascii_of_string "0123456789abcdef".
Definition uuidchars : list ascii := list_ascii_of_string "0123456789abcdef-".

(** The dashes of [UUID_str] can be taken out again. *)
Definition undash (s : string) : string :=
  substring 0 8 s ++ substring 9 4 s ++ substring 14 4 s ++ substring 19 4 s
  ++ substring 24 12 s.

(** The user to whose client a request was handed. *)
Definition sender (e : Event) : option User :=
  match e with Sent self _ => Some self | Drew _ => None end.

(** The text of a version-4 UUID: 36 characters, dashes after the groups of
    8, 4, 4 and 4 hexadecimal digits, the version digit [4] and a variant
    digit among [8], [9], [a] and [b]. *)
Definition uuid4_shaped (key : string) : Prop :=
  String.length key = 36
  ∧ Forall (.∈ hexchars) (list_ascii_of_string (undash key))
  ∧ String.get 8 key = Some "-"%char ∧ String.get 13 key = Some "-"%char
  ∧ String.get 18 key = Some "-"%char ∧ String.get 23 key = Some "-"%char
  ∧ String.get 14 key = Some "4"%char
  ∧ ∃ c, String.get 19 key = Some c ∧ c ∈ list_ascii_of_string "89ab".

(** ** Concrete inputs *)

(** A source of entropy that gives the same word at every draw. *)
Definition stuck_tape : Tape := {| tape_words := λ _, 0%N; tape_pos := 0 |}.

(** Settings with a pool of four and short values, at three write ratios. *)
Definition small_settings (ratio : Q) : Settings :=
  {| KEY_POOL_SIZE := 4; VALUE_LENGTH := 6; PUT_RATIO := ratio |}.

(** A tape whose words vary with the position. *)
Definition demo_tape : Tape :=
  {| tape_words := λ i,
       (((N.of_nat i * 7919 + 12345678901234567890123) * 9007199254740993) / 7)%N;
     tape_pos := 0 |}.

(** The same words as [demo_tape] after its first [k], read from the start. *)
Definition shifted_tape (k : nat) : Tape :=
  {| tape_words := λ i, tape_words demo_tape (k + i); tape_pos := 0 |}.

Definition alice : User := {| user_id := 1 |}.
Definition bob : User := {| user_id := 2 |}.

(** A hundred invocations, by two users in turn. *)
Definition hundred : list User :=
  (λ i, if Nat.even i then alice else bob) <$> seq 0 100.

(** Two worlds with the pools of one import: the world as imported, and the
    same world with another tape, which gives the words that remain. *)
Definition world_one : World Tape := imported (small_settings (1 # 2)) demo_tape.
Definition world_two : World Tape := set_entropy (shifted_tape 28) world_one.

(** Settings with empty pools. *)
Definition empty_settings : Settings :=
  {| KEY_POOL_SIZE := 0; VALUE_LENGTH := 6; PUT_RATIO := 1 # 2 |}.

(** Settings with values of no character. *)
Definition blank_settings : Settings :=
  {| KEY_POOL_SIZE := 4; VALUE_LENGTH := 0; PUT_RATIO := 1 # 2 |}.

(** * Properties *)

(** ** The library routines on examples *)

(** [string.printable] by the codes of its hundred characters. *)
Example string_printable_codes :
  nat_of_ascii <$> list_ascii_of_string string_printable
  = [48; 49; 50; 51; 52; 53; 54; 55; 56; 57;
     97; 98; 99; 100; 101; 102; 103; 104; 105; 106; 107; 108; 109; 110; 111;
     112; 113; 114; 115; 116; 117; 118; 119; 120; 121; 122;
     65; 66; 67; 68; 69; 70; 71; 72; 73; 74; 75; 76; 77; 78; 79; 80; 81; 82;
     83; 84; 85; 86; 87; 88; 89; 90;
     33; 34; 35; 36; 37; 38; 39; 40; 41; 42; 43; 44; 45; 46; 47;
     58; 59; 60; 61; 62; 63; 64; 91; 92; 93; 94; 95; 96; 123; 124; 125; 126;
     32; 9; 10; 13; 11; 12].
Proof. vm_compute. reflexivity. Qed.

Example UUID_str_digits :
  UUID_str 0x12345678123456781234567812345678
  = "12345678-1234-5678-1234-567812345678".
Proof. vm_compute. reflexivity. Qed.

Example UUID_str_padded :
  UUID_str 0x4000800000000000abcd = "00000000-0000-4000-8000-00000000abcd".
Proof. vm_compute. reflexivity. Qed.

(** Version and variant bits are forced, all other bits are kept. *)
Example UUID_all_ones :
  UUID (bytes_of_N 16 0xffffffffffffffffffffffffffffffff) 4
  = Returned 0xffffffffffff4fffbfffffffffffffff%Z.
Proof. vm_compute. reflexivity. Qed.

Example UUID_wrong_length : UUID (bytes_of_N 15 0) 4 = Raised ValueError.
Proof. reflexivity. Qed.

Example getitem_examples :
  getitem ["a"; "b"; "c"] 1 = Returned "b"
  ∧ getitem ["a"; "b"; "c"] (-1) = Returned "c"
  ∧ getitem ["a"; "b"; "c"] 3 = Raised IndexError
  ∧ getitem ["a"; "b"; "c"] (-4) = Raised IndexError.
Proof. by repeat split. Qed.

(** The settings of the module have a pool that is not empty. *)
Example module_settings_pool : (0 < KEY_POOL_SIZE module_settings)%N.
Proof. reflexivity. Qed.


(** ** Reasoning about [M] *)

Section Monad.
Context {G : Type} `{Entropy G}.

Lemma bind_returned {A B} (m : M G A) (f : A → M G B) w a :
  result (m w) = Returned a →
  (m ≫= f) w
  = {| final := final (f a (final (m w)));
       events := events (m w) ++ events (f a (final (m w)));
       result := result (f a (final (m w))) |}.
Proof. intros Hr. unfold mbind, M_bind. by rewrite Hr. Qed.

Lemma bind_raised {A B} (m : M G A) (f : A → M G B) w e :
  result (m w) = Raised e →
  (m ≫= f) w
  = {| final := final (m w); events := events (m w); result := Raised e |}.
Proof. intros Hr. unfold mbind, M_bind. by rewrite Hr. Qed.

Lemma preserves_ret {A} (a : A) : preserves_pools (mret a : M G A).
Proof. by intros w. Qed.

Lemma preserves_raise {A} e : preserves_pools (raise e : M G A).
Proof. by intros w. Qed.

Lemma preserves_lift {A} (r : Result A) : preserves_pools (lift r : M G A).
Proof. by intros w. Qed.

Lemma preserves_bind {A B} (m : M G A) (f : A → M G B) :
  preserves_pools m → (∀ a, preserves_pools (f a)) → preserves_pools (m ≫= f).
Proof.
  intros Hm Hf w. unfold mbind, M_bind.
  destruct (result (m w)) as [e|a]; cbn [final]; [apply Hm|].
  destruct (Hf a (final (m w))) as [-> ->]. apply Hm.
Qed.

Lemma preserves_draw_random : preserves_pools (draw_random : M G Q).
Proof. intros w. unfold draw_random. by destruct (random_random _). Qed.

Lemma preserves_draw_randbelow n : preserves_pools (draw_randbelow n : M G nat).
Proof. intros w. unfold draw_randbelow. by destruct (random_randbelow _ _). Qed.

Lemma preserves_draw_urandom n :
  preserves_pools (draw_urandom n : M G (list byte)).
Proof. intros w. unfold draw_urandom. by destruct (os_urandom _ _). Qed.

Lemma preserves_get_key_pool :
  preserves_pools (get_key_pool : M G (list string)).
Proof. by intros w. Qed.

Lemma preserves_get_value_pool :
  preserves_pools (get_value_pool : M G (list string)).
Proof. by intros w. Qed.

Lemma preserves_client_request self r :
  preserves_pools (client_request self r : M G ()).
Proof. by intros w. Qed.

Lemma preserves_attempt (task : M G ()) :
  preserves_pools task → preserves_pools (attempt task).
Proof. intros Ht w. apply Ht. Qed.

End Monad.

Create HintDb frame discriminated.
#[export] Hint Resolve preserves_ret preserves_raise preserves_lift
  preserves_draw_random preserves_draw_randbelow preserves_draw_urandom
  preserves_get_key_pool preserves_get_value_pool preserves_client_request
  preserves_attempt : frame.
#[export] Hint Extern 2 (preserves_pools (_ ≫= _)) =>
  apply preserves_bind; [|intros ?] : frame.

Section Frame.
Context {G : Type} `{Entropy G}.

Lemma preserves_random_choice {A} (seq : list A) :
  preserves_pools (random_choice seq : M G A).
Proof. unfold random_choice. destruct (Nat.eqb _ _); auto with frame. Qed.

Lemma preserves_put_request self : preserves_pools (put_request self : M G ()).
Proof.
  unfold put_request, client_post.
  auto 10 using @preserves_random_choice with frame.
Qed.

Lemma preserves_get_request self : preserves_pools (get_request self : M G ()).
Proof.
  unfold get_request, client_get.
  auto 10 using @preserves_random_choice with frame.
Qed.

Lemma preserves_mixed_load cfg self :
  preserves_pools (mixed_load cfg self : M G ()).
Proof.
  unfold mixed_load. apply preserves_bind; [auto with frame|].
  intros u. destruct (float_lt _ _);
    auto using preserves_put_request, preserves_get_request.
Qed.

Lemma preserves_run_schedule cfg schedule :
  preserves_pools (run_schedule cfg schedule : M G ()).
Proof.
  induction schedule as [|self rest IH]; simpl; [auto with frame|].
  apply preserves_bind; [|done].
  apply preserves_attempt, preserves_mixed_load.
Qed.

End Frame.

(** ** What one invocation does *)

Lemma getitem_lookup {A} (seq : list A) (i : nat) (x : A) :
  seq !! i = Some x → getitem seq (Z.of_nat i) = Returned x.
Proof.
  intros Hx. unfold getitem.
  assert (Hi : (Z.of_nat i <? 0)%Z = false) by (apply Z.ltb_ge; lia).
  by rewrite !Hi, Nat2Z.id, Hx.
Qed.

Section Invocation.
Context {G : Type} `{Entropy G}.

Lemma random_choice_empty {A} (w : World G) :
  random_choice (@nil A) w
  = {| final := w; events := []; result := Raised IndexError |}.
Proof. done. Qed.

Lemma random_choice_nonempty {A} (seq : list A) (w : World G) :
  seq ≠ [] →
  let d := random_randbelow (length seq) (entropy w) in
  ∃ x, seq !! d.1 = Some x
       ∧ random_choice seq w
         = {| final := set_entropy d.2 w;
              events := [Drew (Index (length seq) d.1)];
              result := Returned x |}.
Proof.
  intros Hne d. assert (Hlen : 0 < length seq) by (destruct seq; simpl; [done|lia]).
  pose proof (random_randbelow_range (length seq) (entropy w) Hlen) as Hd.
  fold d in Hd. destruct (lookup_lt_is_Some_2 seq d.1 Hd) as [x Hx].
  exists x; split; [done|].
  unfold random_choice. destruct (Nat.eqb_spec (length seq) 0) as [?|_]; [lia|].
  unfold mbind, M_bind, draw_randbelow, lift. fold d.
  destruct d as [i g]; cbn in *. by rewrite (getitem_lookup _ _ _ Hx).
Qed.

Lemma put_request_spec self (w : World G) :
  key_pool w ≠ [] → value_pool w ≠ [] →
  let d1 := random_randbelow (length (key_pool w)) (entropy w) in
  let d2 := random_randbelow (length (value_pool w)) d1.2 in
  ∃ key value,
    key_pool w !! d1.1 = Some key ∧ value_pool w !! d2.1 = Some value
    ∧ put_request self w
      = {| final := set_entropy d2.2 w;
           events := [Drew (Index (length (key_pool w)) d1.1);
                      Drew (Index (length (value_pool w)) d2.1);
                      Sent self (put_of key value)];
           result := Returned () |}.
Proof.
  intros Hk Hv d1 d2.
  destruct (random_choice_nonempty (key_pool w) w Hk) as (key & Hkey & Ek).
  destruct (random_choice_nonempty (value_pool w) (set_entropy d1.2 w) Hv)
    as (value & Hvalue & Ev).
  exists key, value. split_and!; [done..|].
  unfold put_request, mbind, M_bind, get_key_pool, get_value_pool.
  subst d1 d2. cbn [final events result]. rewrite Ek.
  cbn [final events result].
  change (value_pool (set_entropy ?g w)) with (value_pool w).
  rewrite Ev. by cbn.
Qed.

Lemma get_request_spec self (w : World G) :
  key_pool w ≠ [] →
  let d := random_randbelow (length (key_pool w)) (entropy w) in
  ∃ key,
    key_pool w !! d.1 = Some key
    ∧ get_request self w
      = {| final := set_entropy d.2 w;
           events := [Drew (Index (length (key_pool w)) d.1);
                      Sent self (get_of key)];
           result := Returned () |}.
Proof.
  intros Hk d.
  destruct (random_choice_nonempty (key_pool w) w Hk) as (key & Hkey & Ek).
  exists key. split; [done|].
  unfold get_request, mbind, M_bind, get_key_pool.
  cbn [final events result]. rewrite Ek. by cbn.
Qed.

End Invocation.

(** ** Strings and characters *)

Lemma chars_app (s1 s2 : string) :
  list_ascii_of_string (s1 ++ s2)
  = (list_ascii_of_string s1 ++ list_ascii_of_string s2)%list.
Proof. induction s1 as [|c s1 IH]; simpl; [done|]. by rewrite IH. Qed.

Lemma chars_substring (s : string) : ∀ a n c,
  c ∈ list_ascii_of_string (substring a n s) → c ∈ list_ascii_of_string s.
Proof.
  induction s as [|x s IH]; intros a n c; [by destruct a, n|].
  destruct a as [|a]; simpl.
  - destruct n as [|n]; simpl; [by intros ?%elem_of_nil|].
    intros [->|Hc]%elem_of_cons; [left|right; by eapply IH].
  - intros Hc. right. by eapply IH.
Qed.

Lemma chars_str_join_seq (parts : list string) (P : ascii → Prop) :
  Forall (λ p, ∃ c, p = String c EmptyString ∧ P c) parts →
  String.length (str_join EmptyString parts) = length parts
  ∧ Forall P (list_ascii_of_string (str_join EmptyString parts)).
Proof.
  induction 1 as [|p ps (c & -> & Hc) Hps [IHl IHc]]; [by split|].
  destruct ps as [|q ps]; [split; [done|by repeat constructor]|].
  change (str_join EmptyString (String c EmptyString :: q :: ps))
    with (String c (str_join EmptyString (q :: ps))).
  split; [simpl in *; by rewrite IHl|].
  change (list_ascii_of_string (String c ?s)) with (c :: list_ascii_of_string s).
  by constructor.
Qed.

(** ** The text of a UUID *)

Lemma hexdigit_hexchars d : hexdigit d ∈ hexchars.
Proof.
  unfold hexdigit. fold hexchars.
  destruct (Nat.lt_ge_cases (Z.to_nat d) (length hexchars)) as [Hlt|Hge].
  - apply list_elem_of_In, nth_In, Hlt.
  - rewrite nth_overflow by done. vm_compute. left.
Qed.

Lemma hexdigit_inj d d' :
  (0 <= d < 16)%Z → (0 <= d' < 16)%Z → hexdigit d = hexdigit d' → d = d'.
Proof.
  intros Hd Hd' Heq. unfold hexdigit in Heq. fold hexchars in Heq.
  assert (Hnd : NoDup hexchars) by (apply (bool_decide_unpack _); by vm_compute).
  apply NoDup_ListNoDup in Hnd. rewrite (NoDup_nth _ "0"%char) in Hnd.
  apply Z2Nat.inj; [lia..|].
  apply (Hnd (Z.to_nat d) (Z.to_nat d'));
    [change (length hexchars) with 16; lia..|done].
Qed.

Lemma hex_acc_length w : ∀ n acc,
  String.length (hex_acc w n acc) = w + String.length acc.
Proof.
  induction w as [|w IH]; intros n acc; simpl; [done|].
  rewrite IH; simpl; lia.
Qed.

Lemma hex_acc_chars w : ∀ n acc,
  Forall (.∈ hexchars) (list_ascii_of_string acc) →
  Forall (.∈ hexchars) (list_ascii_of_string (hex_acc w n acc)).
Proof.
  induction w as [|w IH]; intros n acc Hacc; simpl; [done|].
  apply IH. simpl. constructor; [apply hexdigit_hexchars|done].
Qed.

Lemma hex_acc_inj w : ∀ n n' acc acc',
  (0 <= n < 16 ^ Z.of_nat w)%Z → (0 <= n' < 16 ^ Z.of_nat w)%Z →
  hex_acc w n acc = hex_acc w n' acc' → n = n' ∧ acc = acc'.
Proof.
  induction w as [|w IH]; intros n n' acc acc' Hn Hn' Heq; cbn [hex_acc] in Heq.
  - change (16 ^ Z.of_nat 0)%Z with 1%Z in Hn, Hn'. split; [lia|done].
  - rewrite Nat2Z.inj_succ, Z.pow_succ_r in Hn, Hn' by lia.
    apply IH in Heq as [Hq [= Hd ->]];
      [|split; [apply Z.div_pos|apply Z.div_lt_upper_bound]; lia..].
    split; [|done].
    apply hexdigit_inj in Hd; [|by apply Z.mod_pos_bound..].
    rewrite (Z.div_mod n 16), (Z.div_mod n' 16) by lia. congruence.
Qed.

Lemma format_032x_length n : String.length (format_032x n) = 32.
Proof. unfold format_032x. by rewrite hex_acc_length. Qed.

Lemma format_032x_inj n n' :
  (0 <= n < 2 ^ 128)%Z → (0 <= n' < 2 ^ 128)%Z →
  format_032x n = format_032x n' → n = n'.
Proof.
  intros Hn Hn' Heq. by apply hex_acc_inj in Heq as [? _].
Qed.

Lemma UUID_str_chars int :
  Forall (.∈ uuidchars) (list_ascii_of_string (UUID_str int)).
Proof.
  assert (Hhex : ∀ c, c ∈ list_ascii_of_string (format_032x int) → c ∈ uuidchars).
  { intros c Hc. change uuidchars with (hexchars ++ ["-"%char])%list.
    apply elem_of_app; left. revert c Hc. apply Forall_forall.
    apply hex_acc_chars. constructor. }
  apply Forall_forall. intros c. unfold UUID_str, str_slice.
  rewrite !chars_app, !elem_of_app.
  intros Hc.
  repeat match type of Hc with
         | _ ∨ _ => destruct Hc as [Hc|Hc]
         end;
  try by eapply Hhex, chars_substring.
  all: apply list_elem_of_singleton in Hc as ->.
  all: change uuidchars with (hexchars ++ ["-"%char])%list.
  all: apply elem_of_app; right; by left.
Qed.

Lemma undash_layout (hex : string) :
  String.length hex = 32 →
  undash (str_slice hex 0 8 ++ "-" ++ str_slice hex 8 12 ++ "-"
          ++ str_slice hex 12 16 ++ "-" ++ str_slice hex 16 20 ++ "-"
          ++ str_slice hex 20 (String.length hex)) = hex.
Proof.
  intros Hlen. rewrite Hlen.
  do 32 (destruct hex as [|? hex]; [discriminate|]).
  destruct hex; [reflexivity|discriminate].
Qed.

Lemma UUID_str_inj i j :
  (0 <= i < 2 ^ 128)%Z → (0 <= j < 2 ^ 128)%Z → UUID_str i = UUID_str j → i = j.
Proof.
  intros Hi Hj Heq. apply format_032x_inj; [done..|].
  rewrite <- (undash_layout (format_032x i)), <- (undash_layout (format_032x j))
    by apply format_032x_length.
  exact (f_equal undash Heq).
Qed.

Lemma UUID_str_length i : String.length (UUID_str i) = 36.
Proof.
  unfold UUID_str. pose proof (format_032x_length i) as Hlen.
  rewrite Hlen. destruct (format_032x i) as [|? hex]; [discriminate|].
  do 31 (destruct hex as [|? hex]; [discriminate|]).
  destruct hex; [reflexivity|discriminate].
Qed.

(** ** The integer of a UUID *)

Lemma int_from_bytes_range (bytes : list byte) :
  (0 <= int_from_bytes bytes < 256 ^ Z.of_nat (length bytes))%Z.
Proof.
  unfold int_from_bytes.
  assert (Hgen : ∀ acc : Z, (0 <= acc)%Z →
    (0 <= fold_left (λ acc b, acc * 256 + Z.of_N (Byte.to_N b)) bytes acc
     < (acc + 1) * 256 ^ Z.of_nat (length bytes))%Z).
  { induction bytes as [|b bytes IH]; intros acc Hacc.
    - simpl. lia.
    - cbn [fold_left length]. rewrite Nat2Z.inj_succ, Z.pow_succ_r by lia.
      pose proof (Byte.to_N_bounded b) as Hb.
      specialize (IH (acc * 256 + Z.of_N (Byte.to_N b))%Z ltac:(lia)).
      assert (0 < 256 ^ Z.of_nat (length bytes))%Z by (apply Z.pow_pos_nonneg; lia).
      split; [lia|]. eapply Z.lt_le_trans; [apply IH|]. nia. }
  specialize (Hgen 0%Z ltac:(lia)). lia.
Qed.

Lemma Z_testbit_above (x : Z) (n k : Z) :
  (0 <= x < 2 ^ n)%Z → (n <= k)%Z → Z.testbit x k = false.
Proof.
  intros [Hx0 Hxn] Hk.
  destruct (Z.eq_dec x 0%Z) as [->|Hne]; [apply Z.bits_0|].
  apply Z.bits_above_log2; [done|].
  assert (0 <= n)%Z.
  { destruct (Z.le_gt_cases 0%Z n); [done|]. rewrite Z.pow_neg_r in Hxn; lia. }
  apply Z.log2_lt_pow2 in Hxn; lia.
Qed.

Lemma Z_below_testbit (x : Z) (n : Z) :
  (0 <= n)%Z → (0 <= x)%Z → (∀ k, (n <= k)%Z → Z.testbit x k = false) →
  (x < 2 ^ n)%Z.
Proof.
  intros Hn Hx Hbits.
  assert (Hmod : (x mod 2 ^ n = x)%Z).
  { apply Z.bits_inj'. intros k Hk.
    destruct (Z.lt_ge_cases k n).
    - by rewrite Z.mod_pow2_bits_low.
    - rewrite Z.mod_pow2_bits_high, Hbits; [done|lia..]. }
  rewrite <- Hmod. apply Z.mod_pos_bound, Z.pow_pos_nonneg; lia.
Qed.

Lemma UUID_range bytes version int :
  UUID bytes version = Returned int → (0 <= int < 2 ^ 128)%Z.
Proof.
  unfold UUID. destruct (negb (Nat.eqb _ _)); [done|].
  destruct (negb (_ && _)) eqn:Hrange; [done|].
  destruct (negb (_ && _)) eqn:Hversion in |- *; [done|].
  intros [= <-].
  apply negb_false_iff, andb_true_iff in Hrange as [Hlo Hhi].
  apply negb_false_iff, andb_true_iff in Hversion as [Hv1 Hv8].
  apply Z.leb_le in Hlo, Hv1, Hv8. apply Z.ltb_lt in Hhi.
  change (Z.shiftl 1 128) with (2 ^ 128)%Z in Hhi.
  set (x := int_from_bytes bytes) in *.
  assert (Hvb : (0 <= Z.shiftl version 76 < 2 ^ 128)%Z).
  { rewrite Z.shiftl_mul_pow2 by lia.
    assert (E76 : (2 ^ 76 = 75557863725914323419136)%Z) by reflexivity.
    assert (E128 : (2 ^ 128 = 340282366920938463463374607431768211456)%Z)
      by reflexivity.
    rewrite E76, E128. lia. }
  match goal with |- (0 <= ?y < _)%Z => assert (Hy : (0 <= y)%Z) end.
  { rewrite Z.lor_nonneg, Z.land_nonneg, Z.lor_nonneg, Z.land_nonneg.
    split; [left; split; [by left|by apply Z.shiftl_nonneg]|lia]. }
  split; [done|].
  apply Z_below_testbit; [lia|done|].
  intros k Hk.
  rewrite Z.lor_spec, Z.land_spec, Z.lor_spec, Z.land_spec.
  by rewrite (Z_testbit_above x 128%Z k),
    (Z_testbit_above (Z.shiftl version 76) 128%Z k),
    (Z_testbit_above (Z.shiftl 32768 48) 128%Z k).
Qed.

Lemma UUID_returns bytes :
  length bytes = 16 → ∃ int, UUID bytes 4 = Returned int.
Proof.
  intros Hlen. unfold UUID. rewrite Hlen. cbn [Nat.eqb negb].
  pose proof (int_from_bytes_range bytes) as Hr. rewrite Hlen in Hr.
  change (256 ^ Z.of_nat 16)%Z with (2 ^ 128)%Z in Hr.
  change (Z.shiftl 1 128) with (2 ^ 128)%Z.
  destruct (Z.leb_spec 0%Z (int_from_bytes bytes)); [|lia].
  destruct (Z.ltb_spec (int_from_bytes bytes) (2 ^ 128)%Z); [|lia].
  cbn. eauto.
Qed.

(** ** The import: how the pools are made *)

Section Pools.
Context {G : Type} `{Entropy G}.

Lemma preserves_for_range {A} (body : M G A) k :
  preserves_pools body → preserves_pools (for_range k body).
Proof.
  intros Hb. induction k as [|k IH]; simpl; [auto with frame|].
  apply preserves_bind; [done|]. intros x.
  apply preserves_bind; [done|]. auto with frame.
Qed.

Lemma for_range_spec {A} (body : M G A) (R : list Event → A → Prop) :
  (∀ w, ∃ a, result (body w) = Returned a ∧ R (events (body w)) a) →
  ∀ k w, ∃ l ess,
    result (for_range k body w) = Returned l
    ∧ events (for_range k body w) = concat ess
    ∧ Forall2 R ess l ∧ length l = k.
Proof.
  intros Hbody. induction k as [|k IH]; intros w.
  - exists [], []. by repeat split.
  - destruct (Hbody w) as (a & Ha & HR).
    destruct (IH (final (body w))) as (l & ess & Hl & Hev & HF & Hlen).
    exists (a :: l), (events (body w) :: ess).
    cbn [for_range]. rewrite (bind_returned _ _ _ _ Ha).
    cbn [final events result]. rewrite (bind_returned _ _ _ _ Hl).
    cbn [final events result concat]. rewrite Hev, app_nil_r.
    repeat split; [by constructor|simpl; by rewrite Hlen].
Qed.

Lemma samples_concat_nil (ess : list (list Event)) :
  Forall (λ es, samples es = []) ess → samples (concat ess) = [].
Proof.
  induction 1 as [|es ess Hes _ IH]; [done|].
  unfold samples in *. simpl. by rewrite omap_app, Hes, IH.
Qed.

Lemma uuid_uuid4_spec (w : World G) :
  let d := os_urandom 16 (entropy w) in
  ∃ int, UUID d.1 4 = Returned int
         ∧ uuid_uuid4 w
           = {| final := set_entropy d.2 w; events := [Drew (Bytes d.1)];
                result := Returned int |}.
Proof.
  intros d. destruct (UUID_returns d.1 (os_urandom_length 16 (entropy w)))
    as [int Hint].
  exists int. split; [done|].
  unfold uuid_uuid4, mbind, M_bind, draw_urandom, lift. fold d.
  destruct d as [bs g]; cbn in *. by rewrite Hint.
Qed.

Lemma random_choices_spec {A} (population : list A) (k : nat) (w : World G) :
  population ≠ [] →
  ∃ l, result (random_choices population k w) = Returned l
       ∧ length l = k ∧ Forall (.∈ population) l
       ∧ samples (events (random_choices population k w)) = [].
Proof.
  intros Hne. unfold random_choices.
  set (body := (_ ≫= _) : M G A).
  assert (Hbody : ∀ w', ∃ a, result (body w') = Returned a
            ∧ a ∈ population ∧ samples (events (body w')) = []); last first.
  - destruct (for_range_spec body (λ es a, a ∈ population ∧ samples es = [])
                Hbody k w) as (l & ess & Hl & Hev & HF & Hlen).
    exists l. rewrite Hl, Hev. split_and!; [done..| |].
    + eapply Forall2_Forall_r; [done|]. apply Forall_forall. by intros ?? ? [??].
    + apply samples_concat_nil. eapply Forall2_Forall_l; [done|].
      apply Forall_forall. by intros ?? ? [??].
  - intros w'. unfold body, mbind, M_bind, draw_random, lift.
    pose proof (random_random_range (entropy w')) as [Hlo Hhi].
    destruct (random_random (entropy w')) as [u g].
    cbn [fst] in Hlo, Hhi. cbn -[Qfloor Qmult inject_Z getitem].
    set (n := Z.of_nat (length population)).
    assert (Hn : (0 < n)%Z) by (destruct population; [done|simpl in n; lia]).
    assert (Hidx : (0 <= Qfloor (u * inject_Z n) < n)%Z).
    { split.
      - rewrite <- (Qfloor_Z 0). apply Qfloor_resp_le.
        apply Qmult_le_0_compat; [done|]. unfold Qle; simpl; lia.
      - apply Z.lt_nge. intros Hge. apply (Qlt_irrefl (inject_Z n)).
        rewrite Zle_Qle in Hge. eapply Qle_lt_trans; [apply Hge|].
        eapply Qle_lt_trans; [apply Qfloor_le|].
        rewrite <- (Qmult_1_l (inject_Z n)) at 2.
        apply Qmult_lt_compat_r; [|done]. unfold Qlt; simpl; lia. }
    destruct (lookup_lt_is_Some_2 population (Z.to_nat (Qfloor (u * inject_Z n))))
      as [x Hx]; [lia|].
    exists x. rewrite <- (Z2Nat.id (Qfloor _)) by lia.
    rewrite (getitem_lookup _ _ _ Hx). cbn [result events app].
    split; [done|]. split; [by eapply list_elem_of_lookup_2|done].
Qed.

End Pools.

Section ClassBody.
Context {G : Type} `{Entropy G}.

Lemma key_body_spec (w : World G) :
  ∃ key, result ((u ← uuid_uuid4; mret (UUID_str u)) w) = Returned key
         ∧ ∃ bs, events ((u ← uuid_uuid4; mret (UUID_str u)) w) = [Drew (Bytes bs)]
                 ∧ uuid4_text bs = Returned key.
Proof.
  destruct (uuid_uuid4_spec w) as (int & Hint & E).
  exists (UUID_str int). unfold mbind, M_bind. rewrite E. cbn [result events final].
  split; [done|]. eexists; split; [done|]. unfold uuid4_text. by rewrite Hint.
Qed.

Lemma value_body_spec cfg (w : World G) :
  let body : M G string :=
    cs ← random_choices (str_seq string_printable) (N.to_nat (VALUE_LENGTH cfg));
    mret (str_join EmptyString cs) in
  ∃ v, result (body w) = Returned v
       ∧ value_ok cfg v ∧ samples (events (body w)) = [].
Proof.
  intros body.
  destruct (random_choices_spec (str_seq string_printable)
              (N.to_nat (VALUE_LENGTH cfg)) w ltac:(done))
    as (cs & Hcs & Hlen & Hin & Hsam).
  exists (str_join EmptyString cs). unfold body.
  rewrite (bind_returned _ _ _ _ Hcs). cbn [result events final].
  rewrite app_nil_r. split; [done|]. split; [|done].
  destruct (chars_str_join_seq cs printable) as [Hl Hc].
  - eapply Forall_impl; [exact Hin|]. intros p Hp.
    apply list_elem_of_fmap in Hp as (c & -> & Hc). by exists c.
  - split; [by rewrite Hl|done].
Qed.

Lemma samples_of_keys (ess : list (list Event)) (keys : list string) :
  Forall2 (λ es key, ∃ bs, es = [Drew (Bytes bs)] ∧ uuid4_text bs = Returned key)
    ess keys →
  Forall2 (λ bs key, uuid4_text bs = Returned key) (samples (concat ess)) keys.
Proof.
  induction 1 as [|es key ess keys (bs & -> & Hbs) _ IH]; [constructor|].
  unfold samples. simpl. by constructor.
Qed.

Lemma CacheUser_spec cfg (g : G) :
  let o := CacheUser cfg (boot g) in
  result o = Returned ()
  ∧ length (key_pool (final o)) = N.to_nat (KEY_POOL_SIZE cfg)
  ∧ length (value_pool (final o)) = N.to_nat (KEY_POOL_SIZE cfg)
  ∧ Forall2 (λ bs key, uuid4_text bs = Returned key)
      (samples (events o)) (key_pool (final o))
  ∧ Forall (value_ok cfg) (value_pool (final o)).
Proof.
  unfold CacheUser.
  set (kbody := (uuid_uuid4 ≫= _) : M G string).
  set (vbody := (random_choices _ _ ≫= _) : M G string).
  set (n := N.to_nat (KEY_POOL_SIZE cfg)).
  destruct (for_range_spec kbody
              (λ es key, ∃ bs, es = [Drew (Bytes bs)] ∧ uuid4_text bs = Returned key)
              key_body_spec n (boot g))
    as (keys & kess & Hk & Hkev & HkF & Hklen).
  set (w1 := final (set_key_pool keys (final (for_range n kbody (boot g))))).
  destruct (for_range_spec vbody (λ es v, value_ok cfg v ∧ samples es = [])
              (value_body_spec cfg) n w1)
    as (values & vess & Hv & Hvev & HvF & Hvlen).
  pose proof (preserves_for_range vbody n) as Hpres.
  specialize (Hpres ltac:(
    apply preserves_bind; [apply preserves_for_range|]; auto with frame) w1) as [Hpk _].
  cbv zeta. rewrite (bind_returned _ _ _ _ Hk).
  rewrite (bind_returned (set_key_pool keys) _ _ () eq_refl).
  fold w1. rewrite (bind_returned _ _ _ _ Hv).
  cbn [final events result set_value_pool key_pool value_pool].
  split_and!; [done| |done| |].
  - by rewrite Hpk.
  - rewrite Hpk, Hkev, Hvev, app_nil_r.
    change (events (set_key_pool keys _)) with (@nil Event).
    cbn [app]. unfold samples. rewrite omap_app.
    fold (samples (concat kess)) (samples (concat vess)).
    rewrite (samples_concat_nil vess), app_nil_r; [by apply samples_of_keys|].
    eapply Forall2_Forall_l; [exact HvF|]. apply Forall_forall. by intros ?? ? [??].
  - eapply Forall2_Forall_r; [exact HvF|]. apply Forall_forall. by intros ?? ? [??].
Qed.

End ClassBody.

(** ** One invocation of the task, case by case *)

Lemma float_lt_iff (x y : Q) : float_lt x y = true ↔ (x < y)%Q.
Proof.
  unfold float_lt. destruct (Qlt_le_dec x y) as [Hlt|Hle]; split; try done.
  intros Hlt. by apply Qle_not_lt in Hle.
Qed.

Section Task.
Context {G : Type} `{Entropy G}.

Lemma put_request_no_keys self (w : World G) :
  key_pool w = [] →
  put_request self w = {| final := w; events := []; result := Raised IndexError |}.
Proof.
  intros Hk. unfold put_request, mbind, M_bind, get_key_pool.
  cbn [final events result]. by rewrite Hk.
Qed.

Lemma put_request_no_values self (w : World G) :
  key_pool w ≠ [] → value_pool w = [] →
  let d := random_randbelow (length (key_pool w)) (entropy w) in
  put_request self w
  = {| final := set_entropy d.2 w;
       events := [Drew (Index (length (key_pool w)) d.1)];
       result := Raised IndexError |}.
Proof.
  intros Hk Hv d.
  destruct (random_choice_nonempty (key_pool w) w Hk) as (key & Hkey & Ek).
  unfold put_request, mbind, M_bind, get_key_pool, get_value_pool.
  subst d. cbn [final events result]. rewrite Ek. cbn [final events result].
  change (value_pool (set_entropy ?g w)) with (value_pool w).
  by rewrite Hv.
Qed.

Lemma get_request_no_keys self (w : World G) :
  key_pool w = [] →
  get_request self w = {| final := w; events := []; result := Raised IndexError |}.
Proof.
  intros Hk. unfold get_request, mbind, M_bind, get_key_pool.
  cbn [final events result]. by rewrite Hk.
Qed.

Lemma mixed_load_unfold cfg self (w : World G) :
  let d := random_random (entropy w) in
  let task := if float_lt d.1 (PUT_RATIO cfg) then put_request self
              else get_request self in
  mixed_load cfg self w
  = {| final := final (task (set_entropy d.2 w));
       events := Drew (Float d.1) :: events (task (set_entropy d.2 w));
       result := result (task (set_entropy d.2 w)) |}.
Proof.
  intros d task. unfold mixed_load, mbind, M_bind, draw_random.
  subst task d. by destruct (random_random (entropy w)) as [u g].
Qed.

(** The invocation when both pools have elements: a write when the float
    drawn is below [PUT_RATIO], a read otherwise. *)
Lemma mixed_load_spec cfg self (w : World G) :
  key_pool w ≠ [] → value_pool w ≠ [] →
  let d0 := random_random (entropy w) in
  let d1 := random_randbelow (length (key_pool w)) d0.2 in
  let d2 := random_randbelow (length (value_pool w)) d1.2 in
  ((d0.1 < PUT_RATIO cfg)%Q →
   ∃ key value,
     key_pool w !! d1.1 = Some key ∧ value_pool w !! d2.1 = Some value
     ∧ mixed_load cfg self w
       = {| final := set_entropy d2.2 w;
            events := [Drew (Float d0.1);
                       Drew (Index (length (key_pool w)) d1.1);
                       Drew (Index (length (value_pool w)) d2.1);
                       Sent self (put_of key value)];
            result := Returned () |})
  ∧ (¬ (d0.1 < PUT_RATIO cfg)%Q →
     ∃ key,
       key_pool w !! d1.1 = Some key
       ∧ mixed_load cfg self w
         = {| final := set_entropy d1.2 w;
              events := [Drew (Float d0.1);
                         Drew (Index (length (key_pool w)) d1.1);
                         Sent self (get_of key)];
              result := Returned () |}).
Proof.
  intros Hk Hv d0 d1 d2. rewrite mixed_load_unfold. fold d0. split.
  - intros Hlt. apply float_lt_iff in Hlt. rewrite Hlt.
    destruct (put_request_spec self (set_entropy d0.2 w) Hk Hv)
      as (key & value & Hkey & Hvalue & E).
    exists key, value. split_and!; [done..|]. by rewrite E.
  - intros Hge. destruct (float_lt d0.1 (PUT_RATIO cfg)) eqn:Hlt;
      [by apply float_lt_iff in Hlt|].
    destruct (get_request_spec self (set_entropy d0.2 w) Hk) as (key & Hkey & E).
    exists key. split; [done|]. by rewrite E.
Qed.

(** The requests of one invocation in any world: none when a pool that is
    needed is empty, one otherwise. *)
Lemma mixed_load_requests cfg self (w : World G) :
  let o := mixed_load cfg self w in
  let u := (random_random (entropy w)).1 in
  (∃ i j key value,
     draws (events o) = [Float u; Index (length (key_pool w)) i;
                         Index (length (value_pool w)) j]
     ∧ float_lt u (PUT_RATIO cfg) = true
     ∧ key_pool w !! i = Some key ∧ value_pool w !! j = Some value
     ∧ requests (events o) = [put_of key value] ∧ result o = Returned ())
  ∨ (∃ i key,
       draws (events o) = [Float u; Index (length (key_pool w)) i]
       ∧ float_lt u (PUT_RATIO cfg) = false
       ∧ key_pool w !! i = Some key
       ∧ requests (events o) = [get_of key] ∧ result o = Returned ())
  ∨ (draws (events o) = [Float u] ∧ key_pool w = []
     ∧ requests (events o) = [] ∧ result o = Raised IndexError)
  ∨ (∃ i key,
       draws (events o) = [Float u; Index (length (key_pool w)) i]
       ∧ float_lt u (PUT_RATIO cfg) = true
       ∧ key_pool w !! i = Some key ∧ value_pool w = []
       ∧ requests (events o) = [] ∧ result o = Raised IndexError).
Proof.
  intros o u. subst o u. rewrite mixed_load_unfold.
  set (d0 := random_random (entropy w)). cbn [final events result].
  destruct (decide (key_pool w = [])) as [Hk|Hk].
  - right; right; left.
    destruct (float_lt _ _);
      [rewrite put_request_no_keys by done|rewrite get_request_no_keys by done];
      by split_and!.
  - destruct (float_lt d0.1 (PUT_RATIO cfg)) eqn:Hlt.
    + destruct (decide (value_pool w = [])) as [Hv|Hv].
      * right; right; right.
        destruct (random_choice_nonempty (key_pool w) (set_entropy d0.2 w) Hk)
          as (key & Hkey & _).
        rewrite (put_request_no_values self (set_entropy d0.2 w)) by done.
        eexists _, key. by split_and!.
      * left.
        destruct (put_request_spec self (set_entropy d0.2 w) Hk Hv)
          as (key & value & Hkey & Hvalue & E).
        rewrite E. eexists _, _, key, value. by split_and!.
    + right; left.
      destruct (get_request_spec self (set_entropy d0.2 w) Hk) as (key & Hkey & E).
      rewrite E. eexists _, key. by split_and!.
Qed.

Lemma mixed_load_request_of_draws cfg self (w : World G) :
  requests (events (mixed_load cfg self w))
  = request_of_draws (PUT_RATIO cfg) (key_pool w) (value_pool w)
      (draws (events (mixed_load cfg self w))).
Proof.
  destruct (mixed_load_requests cfg self w)
    as [(i & j & key & value & -> & Hlt & Hkey & Hvalue & -> & _)
       |[(i & key & -> & Hge & Hkey & -> & _)
        |[(-> & _ & -> & _)|(i & key & -> & Hlt & Hkey & _ & -> & _)]]];
    cbn [request_of_draws].
  - by rewrite Hkey, Hvalue, Hlt.
  - by rewrite Hkey, Hge.
  - done.
  - by rewrite Hkey, Hlt.
Qed.

End Task.

(** ** Runs of the harness *)

Lemma requests_app (es1 es2 : list Event) :
  requests (es1 ++ es2) = (requests es1 ++ requests es2)%list.
Proof. apply omap_app. Qed.

Lemma count_method_app m (rs1 rs2 : list Request) :
  count_method m (rs1 ++ rs2) = count_method m rs1 + count_method m rs2.
Proof. unfold count_method. by rewrite filter_app, length_app. Qed.

Section Runs.
Context {G : Type} `{Entropy G}.

Lemma run_schedule_cons cfg self rest (w : World G) :
  let w' := final (mixed_load cfg self w) in
  run_schedule cfg (self :: rest) w
  = {| final := final (run_schedule cfg rest w');
       events := events (mixed_load cfg self w) ++ events (run_schedule cfg rest w');
       result := result (run_schedule cfg rest w') |}.
Proof. done. Qed.

Lemma same_pools_step cfg self (w w' : World G) :
  same_pools w w' → same_pools w (final (mixed_load cfg self w')).
Proof.
  intros [Hk Hv]. destruct (preserves_mixed_load cfg self w') as [Hk' Hv'].
  split; congruence.
Qed.

Lemma run_schedule_Forall cfg (P : Request → Prop) schedule (w : World G) :
  (∀ self w', same_pools w w' →
     Forall P (requests (events (mixed_load cfg self w')))) →
  ∀ w', same_pools w w' →
    Forall P (requests (events (run_schedule cfg schedule w'))).
Proof.
  intros Hstep. induction schedule as [|self rest IH]; intros w' Hw'.
  - constructor.
  - rewrite run_schedule_cons. cbn [events]. rewrite requests_app.
    apply Forall_app. split; [by apply Hstep|].
    by apply IH, same_pools_step.
Qed.

Lemma run_schedule_count cfg (m : Method) (c : nat) schedule (w : World G) :
  (∀ self w', same_pools w w' →
     count_method m (requests (events (mixed_load cfg self w'))) = c) →
  ∀ w', same_pools w w' →
    count_method m (requests (events (run_schedule cfg schedule w')))
    = c * length schedule.
Proof.
  intros Hstep. induction schedule as [|self rest IH]; intros w' Hw'.
  - simpl. by rewrite Nat.mul_0_r.
  - rewrite run_schedule_cons. cbn [events]. rewrite requests_app, count_method_app.
    rewrite Hstep by done. rewrite IH by by apply same_pools_step.
    cbn [length]. lia.
Qed.

Lemma run_schedule_length cfg schedule (w : World G) :
  (∀ self w', same_pools w w' →
     length (requests (events (mixed_load cfg self w'))) = 1) →
  ∀ w', same_pools w w' →
    length (requests (events (run_schedule cfg schedule w'))) = length schedule.
Proof.
  intros Hstep. induction schedule as [|self rest IH]; intros w' Hw'.
  - done.
  - rewrite run_schedule_cons. cbn [events]. rewrite requests_app, length_app.
    rewrite Hstep by done. rewrite IH by by apply same_pools_step. done.
Qed.

Lemma imported_pools cfg (g : G) :
  length (key_pool (imported cfg g)) = N.to_nat (KEY_POOL_SIZE cfg)
  ∧ length (value_pool (imported cfg g)) = N.to_nat (KEY_POOL_SIZE cfg).
Proof.
  destruct (CacheUser_spec cfg g) as (_ & Hk & Hv & _). by split.
Qed.

Lemma world_after_pools cfg (g : G) schedule :
  same_pools (imported cfg g) (world_after cfg g schedule).
Proof. apply preserves_run_schedule. Qed.

Lemma pools_nonempty cfg (g : G) (w : World G) :
  (0 < KEY_POOL_SIZE cfg)%N → same_pools (imported cfg g) w →
  key_pool w ≠ [] ∧ value_pool w ≠ [].
Proof.
  intros Hn [Hk Hv]. destruct (imported_pools cfg g) as [Hlk Hlv].
  rewrite <- Hk in Hlk. rewrite <- Hv in Hlv.
  split; intros E; rewrite E in *; simpl in *; lia.
Qed.

End Runs.

(** ** Requests and the pools *)

Lemma carries_key_put key value k : carries_key (put_of key value) k ↔ k = key.
Proof.
  unfold carries_key, put_of; cbn [method json]. split.
  - intros (body & [= <-] & Hk). rewrite lookup_insert_eq in Hk. congruence.
  - intros ->. eexists. split; [done|]. by rewrite lookup_insert_eq.
Qed.

Lemma carries_key_get key k : carries_key (get_of key) k ↔ k = key.
Proof.
  unfold carries_key, get_of; cbn [method url]. split; [|by intros ->].
  intros Hk. by apply (inj _) in Hk.
Qed.

Lemma carries_value_put key value v : carries_value (put_of key value) v ↔ v = value.
Proof.
  unfold carries_value, put_of; cbn [json]. split.
  - intros (body & [= <-] & Hv).
    rewrite lookup_insert_ne, lookup_singleton_eq in Hv by done. congruence.
  - intros ->. eexists. split; [done|].
    by rewrite lookup_insert_ne, lookup_singleton_eq.
Qed.

(** ** Counting the outcomes of the index draws *)

Lemma filter_ext_in {A} (P Q : A → Prop) `{∀ x, Decision (P x)}
    `{∀ x, Decision (Q x)} (l : list A) :
  (∀ x, x ∈ l → (P x ↔ Q x)) → filter P l = filter Q l.
Proof.
  induction l as [|x l IH]; intros Hext; [done|].
  rewrite !filter_cons.
  rewrite IH by (intros y Hy; apply Hext; by right).
  destruct (decide (P x)) as [HP|HP], (decide (Q x)) as [HQ|HQ]; try done.
  - by apply Hext in HP; [|left].
  - by apply Hext in HQ; [|left].
Qed.

Lemma filter_lookup_seq (k : string) (pool : list string) : ∀ s,
  length (filter (λ i, pool !! (i - s) = Some k) (seq s (length pool)))
  = occurrences k pool.
Proof.
  unfold occurrences. induction pool as [|x pool IH]; intros s; [done|].
  cbn [length seq].
  assert (Htail : filter (λ i, (x :: pool) !! (i - s) = Some k) (seq (S s) (length pool))
                  = filter (λ i, pool !! (i - S s) = Some k) (seq (S s) (length pool))).
  { apply filter_ext_in. intros i [Hi _]%elem_of_seq.
    by replace (i - s) with (S (i - S s)) by lia. }
  destruct (decide (x = k)) as [->|Hne].
  - rewrite !filter_cons_True; [|done|by rewrite Nat.sub_diag].
    cbn [length]. by rewrite Htail, IH.
  - rewrite !filter_cons_False; [|done|rewrite Nat.sub_diag; by intros [= ?]].
    by rewrite Htail, IH.
Qed.

Lemma filter_cprod {A B} (P : A → Prop) (Q : B → Prop)
    `{∀ x, Decision (P x)} `{∀ y, Decision (Q y)} (l : list A) (k : list B) :
  length (filter (λ xy, P xy.1 ∧ Q xy.2) (cprod l k))
  = length (filter P l) * length (filter Q k).
Proof.
  rewrite list_cprod_list_prod.
  induction l as [|x l IH]; [done|].
  cbn [list_prod]. rewrite filter_app, length_app, IH, filter_cons.
  assert (Hrow : length (filter (λ xy, P xy.1 ∧ Q xy.2) (map (λ y, (x, y)) k))
                 = if decide (P x) then length (filter Q k) else 0).
  { clear IH. induction k as [|y k IHk]; [by destruct (decide (P x))|].
    cbn [map]. rewrite !filter_cons. cbn [fst snd].
    destruct (decide (P x)) as [HP|HP].
    - destruct (decide (Q y)) as [HQ|HQ].
      + rewrite decide_True by done. cbn [length]. by rewrite IHk.
      + rewrite decide_False by tauto. done.
    - rewrite decide_False by tauto. done. }
  rewrite Hrow. destruct (decide (P x)); cbn [length]; lia.
Qed.

Lemma put_of_inj key value key' value' :
  put_of key value = put_of key' value' → key = key' ∧ value = value'.
Proof.
  intros Heq. split.
  - apply (carries_key_put key' value' key). rewrite <- Heq. by apply carries_key_put.
  - apply (carries_value_put key' value' value). rewrite <- Heq.
    by apply carries_value_put.
Qed.

Lemma get_of_inj key key' : get_of key = get_of key' → key = key'.
Proof.
  intros Heq. apply (carries_key_get key' key). rewrite <- Heq.
  by apply carries_key_get.
Qed.

(** Of the outcomes of the two index draws of a write, those on which the
    key is [key] and the value is [value] are as many as the product of the
    occurrences of the key and of the value in their pools. *)
Lemma write_outcomes_count ratio keys values u key value :
  float_lt u ratio = true →
  write_outcomes ratio keys values u (put_of key value)
  = occurrences key keys * occurrences value values.
Proof.
  intros Hlt. unfold write_outcomes.
  rewrite <- (filter_lookup_seq key keys 0), <- (filter_lookup_seq value values 0).
  rewrite <- filter_cprod. f_equal. apply filter_ext_in.
  intros [i j] _. cbn [fst snd request_of_draws]. rewrite !Nat.sub_0_r, Hlt.
  destruct (keys !! i) as [k|], (values !! j) as [v|]; split;
    try done; try (by intros [? ?]).
  - intros Heq. assert (Hr : put_of k v = put_of key value) by congruence.
    by apply put_of_inj in Hr as [-> ->].
  - by intros [[= ->] [= ->]].
Qed.

(** Of the outcomes of the index draw of a read, those on which the key is
    [key] are as many as the occurrences of the key in the key pool. *)
Lemma read_outcomes_count ratio keys values u key :
  float_lt u ratio = false →
  read_outcomes ratio keys values u (get_of key) = occurrences key keys.
Proof.
  intros Hge. unfold read_outcomes.
  rewrite <- (filter_lookup_seq key keys 0). f_equal. apply filter_ext_in.
  intros i _. cbn [request_of_draws]. rewrite Nat.sub_0_r, Hge.
  destruct (keys !! i) as [k|]; split; try done.
  - intros Heq. assert (Hr : get_of k = get_of key) by congruence.
    by apply get_of_inj in Hr as ->.
  - by intros [= ->].
Qed.

Section Claims.
Context {G : Type} `{Entropy G}.

(** C1: every invocation of [mixed_load] draws a float.  When the float is
    below [PUT_RATIO] the invocation is a write: it draws an index over the
    whole key pool and takes the key there, draws a second, separate index
    over the whole value pool and takes the value there, and hands one
    [POST /put] carrying both to the client.  Otherwise it is a read: it
    draws one index over the whole key pool and hands one
    [GET /get?key=<key>], carrying the key only, to the client.  The request
    is the function [request_of_draws] of the draws, under which every
    element of a pool is chosen on as many outcomes of its index draw as it
    occurs in the pool, and every pair of a key and a value on the product of
    the two numbers: with index draws that are uniform and independent, as
    those of [random.choice] are, key and value are uniform over their pools
    and independent. *)
Theorem mixed_load_write_or_read cfg (g : G) schedule self :
  (0 < KEY_POOL_SIZE cfg)%N →
  let w := world_after cfg g schedule in
  let d0 := random_random (entropy w) in
  let d1 := random_randbelow (length (key_pool w)) d0.2 in
  let d2 := random_randbelow (length (value_pool w)) d1.2 in
  ((d0.1 < PUT_RATIO cfg)%Q →
   ∃ key value,
     key_pool w !! d1.1 = Some key ∧ value_pool w !! d2.1 = Some value
     ∧ mixed_load cfg self w
       = {| final := set_entropy d2.2 w;
            events := [Drew (Float d0.1);
                       Drew (Index (length (key_pool w)) d1.1);
                       Drew (Index (length (value_pool w)) d2.1);
                       Sent self (put_of key value)];
            result := Returned () |})
  ∧ (¬ (d0.1 < PUT_RATIO cfg)%Q →
     ∃ key,
       key_pool w !! d1.1 = Some key
       ∧ mixed_load cfg self w
         = {| final := set_entropy d1.2 w;
              events := [Drew (Float d0.1);
                         Drew (Index (length (key_pool w)) d1.1);
                         Sent self (get_of key)];
              result := Returned () |})
  ∧ requests (events (mixed_load cfg self w))
    = request_of_draws (PUT_RATIO cfg) (key_pool w) (value_pool w)
        (draws (events (mixed_load cfg self w)))
  ∧ (∀ u key value,
       (u < PUT_RATIO cfg)%Q →
       write_outcomes (PUT_RATIO cfg) (key_pool w) (value_pool w) u
         (put_of key value)
       = occurrences key (key_pool w) * occurrences value (value_pool w))
  ∧ (∀ u key,
       ¬ (u < PUT_RATIO cfg)%Q →
       read_outcomes (PUT_RATIO cfg) (key_pool w) (value_pool w) u (get_of key)
       = occurrences key (key_pool w)).
Proof.
  intros Hn w.
  destruct (pools_nonempty cfg g w Hn (world_after_pools cfg g schedule)) as [Hk Hv].
  destruct (mixed_load_spec cfg self w Hk Hv) as [Hput Hget].
  cbv zeta. split_and!; [done|done|apply mixed_load_request_of_draws| |].
  - intros u key value Hlt. by apply write_outcomes_count, float_lt_iff.
  - intros u key Hge. apply read_outcomes_count.
    destruct (float_lt u (PUT_RATIO cfg)) eqn:Hlt; [|done].
    by apply float_lt_iff in Hlt.
Qed.

(** The float drawn is below a ratio of one and not below a ratio of zero. *)
Lemma float_lt_ratio_one cfg (w : World G) :
  (PUT_RATIO cfg == 1)%Q →
  float_lt (random_random (entropy w)).1 (PUT_RATIO cfg) = true.
Proof.
  intros Hr. apply float_lt_iff. rewrite Hr. apply random_random_range.
Qed.

Lemma float_lt_ratio_zero cfg (w : World G) :
  (PUT_RATIO cfg == 0)%Q →
  float_lt (random_random (entropy w)).1 (PUT_RATIO cfg) = false.
Proof.
  intros Hr. destruct (float_lt _ _) eqn:Hlt; [|done].
  apply float_lt_iff in Hlt. rewrite Hr in Hlt.
  destruct (random_random_range (entropy w)) as [Hlo _].
  by apply Qle_not_lt in Hlo.
Qed.

(** C2: with a write ratio of one and pools that are not empty, every
    invocation hands the client one [POST /put] whose key is in the key pool
    and whose value is in the value pool, and no [GET]: a run of [n]
    invocations makes [n] such [POST] requests and no [GET] request. *)
Theorem ratio_one_all_writes cfg (g : G) schedule :
  (0 < KEY_POOL_SIZE cfg)%N → (PUT_RATIO cfg == 1)%Q →
  let w := imported cfg g in
  let rs := requests (events (run_schedule cfg schedule w)) in
  Forall (λ r, ∃ key value,
            r = put_of key value ∧ key ∈ key_pool w ∧ value ∈ value_pool w) rs
  ∧ length rs = length schedule
  ∧ count_method POST rs = length schedule
  ∧ count_method GET rs = 0.
Proof.
  intros Hn Hr w rs.
  assert (Hstep : ∀ self w', same_pools w w' →
            ∃ key value,
              requests (events (mixed_load cfg self w')) = [put_of key value]
              ∧ key ∈ key_pool w ∧ value ∈ value_pool w).
  { intros self w' Hw'. pose proof Hw' as [Hk Hv].
    destruct (pools_nonempty cfg g w' Hn Hw') as [Hke Hve].
    pose proof (float_lt_ratio_one cfg w' Hr) as Hlt.
    destruct (mixed_load_requests cfg self w')
      as [(i & j & key & value & _ & _ & Hkey & Hvalue & Hreq & _)
         |[(i & key & _ & Hge & _)|[(_ & He & _)|(i & key & _ & _ & _ & He & _)]]];
      [|congruence|done|done].
    exists key, value. rewrite <- Hk, <- Hv.
    split_and!; [done|by eapply list_elem_of_lookup_2..]. }
  subst rs. split_and!.
  - apply (run_schedule_Forall cfg _ schedule w); [|done].
    intros self w' Hw'. destruct (Hstep self w' Hw') as (key & value & -> & ? & ?).
    constructor; [|constructor]. by exists key, value.
  - apply (run_schedule_length cfg schedule w); [|done].
    intros self w' Hw'. by destruct (Hstep self w' Hw') as (key & value & -> & _).
  - rewrite (run_schedule_count cfg POST 1 schedule w); [lia| |done].
    intros self w' Hw'. by destruct (Hstep self w' Hw') as (key & value & -> & _).
  - rewrite (run_schedule_count cfg GET 0 schedule w); [lia| |done].
    intros self w' Hw'. by destruct (Hstep self w' Hw') as (key & value & -> & _).
Qed.

(** C3: with a write ratio of zero and a key pool that is not empty, every
    invocation hands the client one [GET /get?key=<key>] whose key is in the
    key pool, and no [POST]: a run of [n] invocations makes [n] such [GET]
    requests and no [POST /put] request. *)
Theorem ratio_zero_all_reads cfg (g : G) schedule :
  (0 < KEY_POOL_SIZE cfg)%N → (PUT_RATIO cfg == 0)%Q →
  let w := imported cfg g in
  let rs := requests (events (run_schedule cfg schedule w)) in
  Forall (λ r, ∃ key, r = get_of key ∧ key ∈ key_pool w) rs
  ∧ length rs = length schedule
  ∧ count_method GET rs = length schedule
  ∧ count_method POST rs = 0.
Proof.
  intros Hn Hr w rs.
  assert (Hstep : ∀ self w', same_pools w w' →
            ∃ key, requests (events (mixed_load cfg self w')) = [get_of key]
                   ∧ key ∈ key_pool w).
  { intros self w' Hw'. pose proof Hw' as [Hk Hv].
    destruct (pools_nonempty cfg g w' Hn Hw') as [Hke Hve].
    pose proof (float_lt_ratio_zero cfg w' Hr) as Hge.
    destruct (mixed_load_requests cfg self w')
      as [(i & j & key & value & _ & Hlt & _)
         |[(i & key & _ & _ & Hkey & Hreq & _)
          |[(_ & He & _)|(i & key & _ & Hlt & _)]]];
      [congruence| |done|congruence].
    exists key. rewrite <- Hk. split; [done|by eapply list_elem_of_lookup_2]. }
  subst rs. split_and!.
  - apply (run_schedule_Forall cfg _ schedule w); [|done].
    intros self w' Hw'. destruct (Hstep self w' Hw') as (key & -> & ?).
    constructor; [|constructor]. by exists key.
  - apply (run_schedule_length cfg schedule w); [|done].
    intros self w' Hw'. by destruct (Hstep self w' Hw') as (key & -> & _).
  - rewrite (run_schedule_count cfg GET 1 schedule w); [lia| |done].
    intros self w' Hw'. by destruct (Hstep self w' Hw') as (key & -> & _).
  - rewrite (run_schedule_count cfg POST 0 schedule w); [lia| |done].
    intros self w' Hw'. by destruct (Hstep self w' Hw') as (key & -> & _).
Qed.

(** Every request of a run is the write of a key and a value of the pools or
    the read of a key of the key pool. *)
Lemma mixed_load_request_shape cfg self (w : World G) :
  Forall (λ r, (∃ key value, r = put_of key value
                             ∧ key ∈ key_pool w ∧ value ∈ value_pool w)
               ∨ (∃ key, r = get_of key ∧ key ∈ key_pool w))
    (requests (events (mixed_load cfg self w))).
Proof.
  destruct (mixed_load_requests cfg self w)
    as [(i & j & key & value & _ & _ & Hkey & Hvalue & -> & _)
       |[(i & key & _ & _ & Hkey & -> & _)
        |[(_ & _ & -> & _)|(i & key & _ & _ & _ & _ & -> & _)]]].
  - apply Forall_singleton. left. exists key, value.
    split_and!; [done|by eapply list_elem_of_lookup_2..].
  - apply Forall_singleton. right. exists key.
    split; [done|by eapply list_elem_of_lookup_2].
  - apply Forall_nil_2.
  - apply Forall_nil_2.
Qed.

Lemma run_request_shape cfg schedule (w : World G) :
  Forall (λ r, (∃ key value, r = put_of key value
                             ∧ key ∈ key_pool w ∧ value ∈ value_pool w)
               ∨ (∃ key, r = get_of key ∧ key ∈ key_pool w))
    (requests (events (run_schedule cfg schedule w))).
Proof.
  apply (run_schedule_Forall cfg _ schedule w); [|done].
  intros self w' [Hk Hv]. rewrite <- Hk, <- Hv. apply mixed_load_request_shape.
Qed.

(** C4: every request of a run, read or write, carries a key, and the key it
    carries is an element of the key pool of the world the run started in;
    no other key appears in a request. *)
Theorem request_keys_from_pool cfg schedule (w : World G) :
  Forall (λ r, (∃ k, carries_key r k) ∧ ∀ k, carries_key r k → k ∈ key_pool w)
    (requests (events (run_schedule cfg schedule w))).
Proof.
  eapply Forall_impl; [apply run_request_shape|].
  intros r [(key & value & -> & Hkey & _)|(key & -> & Hkey)].
  - split; [exists key; by apply carries_key_put|].
    by intros k ->%carries_key_put.
  - split; [exists key; by apply carries_key_get|].
    by intros k ->%carries_key_get.
Qed.

(** C5: every element of the value pool made at import is a string of
    exactly [VALUE_LENGTH] characters (256 in the module's settings), all of
    them in [string.printable]; every write of a run carries in its body a
    value, which is an element of that pool and so has that length. *)
Theorem written_values_from_pool cfg (g : G) schedule :
  let w := imported cfg g in
  Forall (value_ok cfg) (value_pool w)
  ∧ Forall (λ r, method r = POST →
                 (∃ v, carries_value r v)
                 ∧ ∀ v, carries_value r v → v ∈ value_pool w ∧ value_ok cfg v)
      (requests (events (run_schedule cfg schedule w)))
  ∧ VALUE_LENGTH module_settings = 256%N.
Proof.
  intros w. destruct (CacheUser_spec cfg g) as (_ & _ & _ & _ & Hvalues).
  fold (imported cfg g) in Hvalues. fold w in Hvalues.
  split_and!; [done| |done].
  eapply Forall_impl; [apply run_request_shape|].
  intros r [(key & value & -> & _ & Hvalue)|(key & -> & _)]; [|done].
  intros _. split; [exists value; by apply carries_value_put|].
  intros v ->%carries_value_put. split; [done|].
  by eapply (proj1 (Forall_forall _ _) Hvalues).
Qed.

(** C6: the key pool and the value pool made at import both have
    [KEY_POOL_SIZE] elements, and no operation of the generator changes
    them: the write path, the read path and the task leave both pools as
    they are in every world, so after any sequence of invocations both pools
    are equal to the pools made at import. *)
Theorem pools_same_size_never_mutated cfg (g : G) :
  let w := imported cfg g in
  length (key_pool w) = N.to_nat (KEY_POOL_SIZE cfg)
  ∧ length (value_pool w) = N.to_nat (KEY_POOL_SIZE cfg)
  ∧ length (key_pool w) = length (value_pool w)
  ∧ (∀ self, preserves_pools (put_request self : M G ())
             ∧ preserves_pools (get_request self : M G ())
             ∧ preserves_pools (mixed_load cfg self : M G ()))
  ∧ (∀ schedule,
       key_pool (world_after cfg g schedule) = key_pool w
       ∧ value_pool (world_after cfg g schedule) = value_pool w).
Proof.
  intros w. destruct (imported_pools cfg g) as [Hk Hv]. fold w in Hk, Hv.
  split_and!; [done|done|congruence| |].
  - intros self. split_and!;
      [apply preserves_put_request|apply preserves_get_request
      |apply preserves_mixed_load].
  - intros schedule. apply world_after_pools.
Qed.

(** C7: with pools that are not empty, an invocation of the task returns
    normally and hands exactly one request to the client of the invoking
    user, as its last action; the world after it is the world before it but
    for the state of the entropy source it drew from: no class attribute is
    changed. *)
Theorem one_request_per_invocation cfg (g : G) schedule self :
  (0 < KEY_POOL_SIZE cfg)%N →
  let w := world_after cfg g schedule in
  let o := mixed_load cfg self w in
  result o = Returned ()
  ∧ (∃ r, requests (events o) = [r] ∧ last (events o) = Some (Sent self r))
  ∧ length (requests (events o)) = 1
  ∧ final o = set_entropy (entropy (final o)) w.
Proof.
  intros Hn w o.
  destruct (pools_nonempty cfg g w Hn (world_after_pools cfg g schedule)) as [Hk Hv].
  destruct (mixed_load_spec cfg self w Hk Hv) as [Hput Hget].
  destruct (Qlt_le_dec (random_random (entropy w)).1 (PUT_RATIO cfg)) as [Hlt|Hge].
  - destruct (Hput Hlt) as (key & value & _ & _ & E).
    subst o. rewrite E. cbn [final events result].
    split_and!; [done| |done|done]. by exists (put_of key value).
  - destruct (Hget (Qle_not_lt _ _ Hge)) as (key & _ & E).
    subst o. rewrite E. cbn [final events result].
    split_and!; [done| |done|done]. by exists (get_of key).
Qed.

End Claims.

(** ** The shape of the requests *)

Lemma str_split_no_sep (sep : ascii) (s : string) :
  sep ∉ list_ascii_of_string s → str_split sep s = [s].
Proof.
  induction s as [|c s IH]; [done|]. simpl. intros Hsep.
  apply not_elem_of_cons in Hsep as [Hne Hsep].
  destruct (Ascii.eqb_spec c sep) as [->|_]; [done|]. by rewrite IH.
Qed.

Lemma get_of_target (key : string) :
  Forall (.∈ uuidchars) (list_ascii_of_string key) →
  url_path (url (get_of key)) = "/get"
  ∧ url_query (url (get_of key)) = [("key", key)].
Proof.
  intros Hchars. split; [done|].
  change (url_query (url (get_of key))) with (query_parameters ("key=" ++ key)).
  unfold query_parameters. rewrite str_split_no_sep; [done|].
  change (list_ascii_of_string ("key=" ++ key))
    with (list_ascii_of_string "key=" ++ list_ascii_of_string key)%list.
  assert (Hname : "&"%char ∉ list_ascii_of_string "key=")
    by (apply (bool_decide_unpack _); by vm_compute).
  assert (Huuid : "&"%char ∉ uuidchars)
    by (apply (bool_decide_unpack _); by vm_compute).
  intros [Hin|Hin]%elem_of_app; [done|].
  by apply (proj1 (Forall_forall _ _) Hchars) in Hin.
Qed.

Lemma put_of_write key value : write_request key value (put_of key value).
Proof.
  split_and!; [done..|]. exists {[ "key" := key; "value" := value ]}.
  split_and!; [done| |by rewrite lookup_insert_eq
              |by rewrite lookup_insert_ne, lookup_singleton_eq].
  by rewrite dom_insert_L, dom_singleton_L.
Qed.

Lemma put_of_shape key value : write_shape (put_of key value).
Proof.
  destruct (put_of_write key value) as (Hm & Hu & body & Hb).
  split_and!; [done..|]. by exists body, key, value.
Qed.

Lemma get_of_read (key : string) :
  Forall (.∈ uuidchars) (list_ascii_of_string key) →
  read_request key (get_of key).
Proof.
  intros Hchars. destruct (get_of_target key Hchars) as [Hp Hq].
  by split_and!.
Qed.

Section Shapes.
Context {G : Type} `{Entropy G}.

Lemma imported_keys_uuid cfg (g : G) :
  Forall (λ key, ∃ bs int, UUID bs 4 = Returned int ∧ key = UUID_str int)
    (key_pool (imported cfg g)).
Proof.
  destruct (CacheUser_spec cfg g) as (_ & _ & _ & Hkeys & _).
  eapply Forall2_Forall_r; [exact Hkeys|]. apply Forall_forall.
  intros bs _ key. unfold uuid4_text.
  destruct (UUID bs 4) as [e|int] eqn:E; [done|]. intros [= <-]. eauto.
Qed.

Lemma imported_keys_chars cfg (g : G) (w : World G) key :
  same_pools (imported cfg g) w → key ∈ key_pool w →
  Forall (.∈ uuidchars) (list_ascii_of_string key).
Proof.
  intros [Hk _] Hkey. rewrite Hk in Hkey.
  apply (proj1 (Forall_forall _ _) (imported_keys_uuid cfg g)) in Hkey
    as (bs & int & _ & ->).
  apply UUID_str_chars.
Qed.

(** C8: the two operations of the generator send the two shapes of request,
    in every world [w] whose pools are those the import built (so in every
    world a run goes through), the pool size being positive.  With [d1] the
    index [put_request] or [get_request] draws for the key and [d2] the
    index [put_request] draws next for the value:
    - a write, an invocation of [put_request], hands the client exactly one
      request, a [POST] to [/put] whose JSON body has exactly the two fields
      ["key"] and ["value"], both strings, the first the key selected (the
      element [d1] of the key pool) and the second the value selected (the
      element [d2] of the value pool);
    - a read, an invocation of [get_request], hands the client exactly one
      request, a [GET] with no body to [/get?key=<key>], [<key>] the key
      selected (the element [d1] of the key pool), a target whose path is
      [/get] and whose query string has the single parameter [key=<key>];
    - the requests of an invocation of the task [mixed_load] are those of
      the write when the float it draws is below the ratio, and of the read
      otherwise;
    - so every [POST] of a run has the shape of a write and every [GET] the
      shape of a read. *)
Theorem request_shapes cfg (g : G) schedule self (w : World G) :
  (0 < KEY_POOL_SIZE cfg)%N →
  same_pools (imported cfg g) w →
  let d1 := random_randbelow (length (key_pool w)) (entropy w) in
  let d2 := random_randbelow (length (value_pool w)) d1.2 in
  let d0 := random_random (entropy w) in
  (∃ key value r,
      key_pool w !! d1.1 = Some key ∧ value_pool w !! d2.1 = Some value
      ∧ requests (events (put_request self w)) = [r]
      ∧ write_request key value r)
  ∧ (∃ key r,
        key_pool w !! d1.1 = Some key
        ∧ requests (events (get_request self w)) = [r]
        ∧ read_request key r)
  ∧ requests (events (mixed_load cfg self w))
    = requests (events ((if float_lt d0.1 (PUT_RATIO cfg)
                         then put_request self
                         else get_request self) (set_entropy d0.2 w)))
  ∧ Forall (λ r, match method r with
                 | POST => write_shape r
                 | GET => read_shape r
                 end)
      (requests (events (run_schedule cfg schedule (imported cfg g)))).
Proof.
  intros Hn Hw d1 d2 d0.
  destruct (pools_nonempty cfg g w Hn Hw) as [Hk Hv].
  split_and!.
  - destruct (put_request_spec self w Hk Hv) as (key & value & Hkey & Hvalue & ->).
    exists key, value, (put_of key value).
    split_and!; [done..|]. apply put_of_write.
  - destruct (get_request_spec self w Hk) as (key & Hkey & ->).
    exists key, (get_of key). split_and!; [done..|].
    apply get_of_read, (imported_keys_chars cfg g w); [done|].
    by eapply list_elem_of_lookup_2.
  - by rewrite mixed_load_unfold.
  - eapply Forall_impl; [apply run_request_shape|].
    intros r [(key & value & -> & _)|(key & -> & Hkey)].
    + apply put_of_shape.
    + destruct (get_of_read key) as (Hm & Hj & Hu & Hp & Hq).
      { apply (imported_keys_chars cfg g (imported cfg g)); [done|exact Hkey]. }
      split_and!; [done..|]. by exists key.
Qed.

End Shapes.

(** ** The keys of the pool *)

Section Keys.
Context {G : Type} `{Entropy G}.

Lemma imported_key_loop cfg (g : G) :
  result (for_range (N.to_nat (KEY_POOL_SIZE cfg))
            (u ← uuid_uuid4; mret (UUID_str u)) (boot g))
  = Returned (key_pool (imported cfg g)).
Proof.
  unfold imported, CacheUser.
  set (kbody := (uuid_uuid4 ≫= _) : M G string).
  set (vbody := (random_choices _ _ ≫= _) : M G string).
  set (n := N.to_nat (KEY_POOL_SIZE cfg)).
  destruct (for_range_spec kbody (λ _ _, True)
              ltac:(intros w; destruct (key_body_spec w) as (k & ? & _); eauto)
              n (boot g))
    as (keys & _ & Hk & _).
  set (w1 := final (set_key_pool keys (final (for_range n kbody (boot g))))).
  destruct (for_range_spec vbody (λ _ _, True)
              ltac:(intros w; destruct (value_body_spec cfg w) as (v & ? & _); eauto)
              n w1)
    as (values & _ & Hv & _).
  pose proof (preserves_for_range vbody n) as Hpres.
  specialize (Hpres ltac:(
    apply preserves_bind; [apply preserves_for_range|]; auto with frame) w1) as [Hpk _].
  rewrite (bind_returned _ _ _ _ Hk).
  rewrite (bind_returned (set_key_pool keys) _ _ () eq_refl).
  fold w1. rewrite (bind_returned _ _ _ _ Hv).
  cbn [final set_value_pool key_pool]. by rewrite Hpk, Hk.
Qed.

Lemma for_range_S_result {A} (body : M G A) (k : nat) (w : World G) a l :
  result (body w) = Returned a →
  result (for_range k body (final (body w))) = Returned l →
  result (for_range (S k) body w) = Returned (a :: l).
Proof.
  intros Ha Hl. cbn [for_range].
  rewrite (bind_returned _ _ _ _ Ha). cbn [result].
  by rewrite (bind_returned _ _ _ _ Hl).
Qed.

Lemma for_range_first_two {A} (body : M G A) (n : nat) (w : World G) a0 a1 :
  (∀ w', ∃ a, result (body w') = Returned a) →
  result (body w) = Returned a0 →
  result (body (final (body w))) = Returned a1 →
  ∃ l, result (for_range (S (S n)) body w) = Returned (a0 :: a1 :: l).
Proof.
  intros Hbody H0 H1.
  destruct (for_range_spec body (λ _ _, True)
              ltac:(intros w'; destruct (Hbody w') as (a & ?); eauto)
              n (final (body (final (body w)))))
    as (l & _ & Hl & _).
  exists l. by do 2 (apply for_range_S_result; [done|]).
Qed.

Lemma uuid4_text_Returned bs key :
  uuid4_text bs = Returned key →
  ∃ int, UUID bs 4 = Returned int ∧ key = UUID_str int ∧ (0 <= int < 2 ^ 128)%Z.
Proof.
  unfold uuid4_text. destruct (UUID bs 4) as [e|int] eqn:E; [done|].
  intros [= <-]. exists int. split; [done|]. split; [done|]. by eapply UUID_range.
Qed.

(** C9, as amended: the key pool made at import is a sequence of exactly
    [KEY_POOL_SIZE] strings (10000 in the module's settings), one for each
    16-byte sample drawn from the operating system, in order: the text of
    the version-4 UUID of the sample.  The keys at two indices are equal
    exactly when their samples give the same UUID, so the keys are pairwise
    distinct whenever the UUIDs of the samples are. *)
Theorem key_pool_size_and_distinctness cfg (g : G) :
  let keys := key_pool (imported cfg g) in
  let ss := samples (events (CacheUser cfg (boot g))) in
  length keys = N.to_nat (KEY_POOL_SIZE cfg)
  ∧ Forall2 (λ bs key, uuid4_text bs = Returned key) ss keys
  ∧ (∀ i j bi bj ki kj,
       ss !! i = Some bi → ss !! j = Some bj →
       keys !! i = Some ki → keys !! j = Some kj →
       (ki = kj ↔ UUID bi 4 = UUID bj 4))
  ∧ (NoDup ((λ bs, UUID bs 4) <$> ss) → NoDup keys)
  ∧ KEY_POOL_SIZE module_settings = 10000%N.
Proof.
  intros keys ss.
  destruct (CacheUser_spec cfg g) as (_ & Hlen & _ & Hkeys & _).
  fold (imported cfg g) in Hlen, Hkeys. fold keys in Hlen, Hkeys. fold ss in Hkeys.
  assert (Heq : ∀ i j bi bj ki kj,
            ss !! i = Some bi → ss !! j = Some bj →
            keys !! i = Some ki → keys !! j = Some kj →
            (ki = kj ↔ UUID bi 4 = UUID bj 4)).
  { intros i j bi bj ki kj Hbi Hbj Hki Hkj.
    destruct (Forall2_lookup_l _ _ _ _ _ Hkeys Hbi) as (ki' & Hki' & Hti).
    destruct (Forall2_lookup_l _ _ _ _ _ Hkeys Hbj) as (kj' & Hkj' & Htj).
    assert (ki' = ki) as -> by congruence. assert (kj' = kj) as -> by congruence.
    apply uuid4_text_Returned in Hti as (inti & Ei & -> & Hri).
    apply uuid4_text_Returned in Htj as (intj & Ej & -> & Hrj).
    rewrite Ei, Ej. split; [|by intros [= ->]].
    intros Hstr. f_equal. by apply UUID_str_inj. }
  split_and!; [done..| |done].
  intros Hnd. apply NoDup_alt. intros i j key Hi Hj.
  destruct (Forall2_lookup_r _ _ _ _ _ Hkeys Hi) as (bi & Hbi & _).
  destruct (Forall2_lookup_r _ _ _ _ _ Hkeys Hj) as (bj & Hbj & _).
  eapply (proj1 (NoDup_alt _) Hnd i j (UUID bi 4)).
  - by rewrite list_lookup_fmap, Hbi.
  - rewrite list_lookup_fmap, Hbj. simpl. f_equal.
    symmetry. by apply (Heq i j bi bj key key).
Qed.

End Keys.

(** C9, as stated, fails: when the operating system gives the same bytes
    twice, the pool of the module's settings holds the same key at the
    indices 0 and 1. *)
Lemma key_pool_keys_can_repeat :
  ¬ (∀ i j ki kj,
       i ≠ j →
       key_pool (imported module_settings stuck_tape) !! i = Some ki →
       key_pool (imported module_settings stuck_tape) !! j = Some kj →
       ki ≠ kj).
Proof.
  intros Hdistinct.
  pose proof (imported_key_loop module_settings stuck_tape) as Hloop.
  replace (N.to_nat (KEY_POOL_SIZE module_settings))
    with (S (S (N.to_nat 9998))) in Hloop by (cbn [KEY_POOL_SIZE module_settings]; lia).
  destruct (for_range_first_two (u ← uuid_uuid4; mret (UUID_str u))
              (N.to_nat 9998) (boot stuck_tape)
              "00000000-0000-4000-8000-000000000000"
              "00000000-0000-4000-8000-000000000000")
    as (l & Hl).
  - intros w. destruct (key_body_spec w) as (key & ? & _). by exists key.
  - vm_compute. reflexivity.
  - vm_compute. reflexivity.
  - rewrite Hl in Hloop.
    assert (Hkeys : "00000000-0000-4000-8000-000000000000"
                    :: "00000000-0000-4000-8000-000000000000" :: l
                    = key_pool (imported module_settings stuck_tape)).
    { revert Hloop. generalize (key_pool (imported module_settings stuck_tape)).
      by intros ? [= ->]. }
    apply (Hdistinct 0 1 "00000000-0000-4000-8000-000000000000"
             "00000000-0000-4000-8000-000000000000");
      [discriminate|rewrite <- Hkeys; reflexivity..|reflexivity].
Qed.

(** ** The request as a function of the draws *)

Section Determinism.
Context {G : Type} `{Entropy G}.

(** C10: the request of an invocation is a function of the pools, the ratio
    and the outcomes of the draws made in the invocation.  Two invocations,
    by any two users in any two worlds, under settings with the same ratio,
    that see the same pools and make draws with the same outcomes, hand the
    same requests (method, URL, body and name) to their clients. *)
Theorem request_determined_by_draws cfg1 cfg2 (w1 w2 : World G) self1 self2 :
  PUT_RATIO cfg1 = PUT_RATIO cfg2 →
  key_pool w1 = key_pool w2 → value_pool w1 = value_pool w2 →
  draws (events (mixed_load cfg1 self1 w1))
  = draws (events (mixed_load cfg2 self2 w2)) →
  requests (events (mixed_load cfg1 self1 w1))
  = requests (events (mixed_load cfg2 self2 w2)).
Proof.
  intros Hr Hk Hv Hd. rewrite !mixed_load_request_of_draws. congruence.
Qed.

End Determinism.

(** ** The properties on concrete runs *)

Example hundred_length : length hundred = 100.
Proof. reflexivity. Qed.

Example small_import :
  let w := imported (small_settings (1 # 2)) demo_tape in
  key_pool w = ["0bf37a1c-d466-4869-bade-9d7ea2772e66";
                "0bf37a1c-d466-486a-8847-c210eb9bc51a";
                "0bf37a1c-d466-486b-95b0-e6a334c05bcf";
                "0bf37a1c-d466-486b-a31a-0b357de4f283"]
  ∧ value_pool w = ["9C&" ++ chr 9 ++ "oQ"; ">9C&" ++ chr 9 ++ "o";
                    "Q>9C&" ++ chr 9; "oQ>9C&"]
  ∧ tape_pos (entropy w) = 28.
Proof. vm_compute. by repeat split. Qed.

Example small_run :
  let cfg := small_settings (1 # 2) in
  let w := imported cfg demo_tape in
  events (run_schedule cfg [alice; bob; alice] w)
  = [Drew (Float (8617416518511138 # 9007199254740992)); Drew (Index 4 2);
     Sent alice (get_of "0bf37a1c-d466-486b-95b0-e6a334c05bcf");
     Drew (Float (4757188266481547 # 9007199254740992)); Drew (Index 4 3);
     Sent bob (get_of "0bf37a1c-d466-486b-a31a-0b357de4f283");
     Drew (Float (896960014451955 # 9007199254740992)); Drew (Index 4 0);
     Drew (Index 4 0);
     Sent alice (put_of "0bf37a1c-d466-4869-bade-9d7ea2772e66"
                   ("9C&" ++ chr 9 ++ "oQ"))].
Proof. vm_compute. reflexivity. Qed.

(** The keys of this import are pairwise distinct, as its samples are. *)
Example small_import_distinct :
  NoDup (key_pool (imported (small_settings (1 # 2)) demo_tape)).
Proof. apply (bool_decide_unpack _). vm_compute. reflexivity. Qed.

(** With an empty pool the choice raises and no request is made. *)
Example empty_pool_raises :
  let cfg := {| KEY_POOL_SIZE := 0; VALUE_LENGTH := 6; PUT_RATIO := 1 # 2 |} in
  let o := mixed_load cfg alice (imported cfg demo_tape) in
  result o = Raised IndexError ∧ requests (events o) = [].
Proof. vm_compute. by split. Qed.

(** Three keys of which two are equal, two values: of the six outcomes of
    the index draws of a write, two carry the repeated key with a given
    value, and one carries the other key with it. *)
Example write_outcomes_small :
  write_outcomes (1 # 2) ["a"; "b"; "a"] ["x"; "y"] (1 # 4) (put_of "a" "x") = 2
  ∧ write_outcomes (1 # 2) ["a"; "b"; "a"] ["x"; "y"] (1 # 4) (put_of "b" "x") = 1
  ∧ read_outcomes (1 # 2) ["a"; "b"; "a"] ["x"; "y"] (3 # 4) (get_of "a") = 2.
Proof. vm_compute. by repeat split. Qed.

(** The value written for a key is not a function of the key: here the same
    key is written twice, with two values. *)
Example same_key_two_values :
  let cfg := small_settings 1 in
  let rs := requests (events (run_schedule cfg [alice; bob; alice; bob]
                                (imported cfg demo_tape))) in
  rs !! 0 = Some (put_of "0bf37a1c-d466-486b-95b0-e6a334c05bcf" "oQ>9C&")
  ∧ rs !! 3 = Some (put_of "0bf37a1c-d466-486b-95b0-e6a334c05bcf"
                      ("Q>9C&" ++ chr 9)).
Proof. vm_compute. by split. Qed.

Lemma mixed_load_write_or_read_witness :
  (0 < KEY_POOL_SIZE (small_settings (1 # 2)))%N
  ∧ let w := world_after (small_settings (1 # 2)) demo_tape [alice; bob] in
    let d0 := random_random (entropy w) in
    let d1 := random_randbelow (length (key_pool w)) d0.2 in
    let d2 := random_randbelow (length (value_pool w)) d1.2 in
    ((d0.1 < PUT_RATIO (small_settings (1 # 2)))%Q →
     ∃ key value,
       key_pool w !! d1.1 = Some key ∧ value_pool w !! d2.1 = Some value
       ∧ mixed_load (small_settings (1 # 2)) alice w
         = {| final := set_entropy d2.2 w;
              events := [Drew (Float d0.1);
                         Drew (Index (length (key_pool w)) d1.1);
                         Drew (Index (length (value_pool w)) d2.1);
                         Sent alice (put_of key value)];
              result := Returned () |})
    ∧ (¬ (d0.1 < PUT_RATIO (small_settings (1 # 2)))%Q →
       ∃ key,
         key_pool w !! d1.1 = Some key
         ∧ mixed_load (small_settings (1 # 2)) alice w
           = {| final := set_entropy d1.2 w;
                events := [Drew (Float d0.1);
                           Drew (Index (length (key_pool w)) d1.1);
                           Sent alice (get_of key)];
                result := Returned () |})
    ∧ requests (events (mixed_load (small_settings (1 # 2)) alice w))
      = request_of_draws (PUT_RATIO (small_settings (1 # 2))) (key_pool w)
          (value_pool w)
          (draws (events (mixed_load (small_settings (1 # 2)) alice w)))
    ∧ (∀ u key value,
         (u < PUT_RATIO (small_settings (1 # 2)))%Q →
         write_outcomes (PUT_RATIO (small_settings (1 # 2))) (key_pool w)
           (value_pool w) u (put_of key value)
         = occurrences key (key_pool w) * occurrences value (value_pool w))
    ∧ (∀ u key,
         ¬ (u < PUT_RATIO (small_settings (1 # 2)))%Q →
         read_outcomes (PUT_RATIO (small_settings (1 # 2))) (key_pool w)
           (value_pool w) u (get_of key)
         = occurrences key (key_pool w)).
Proof.
  split; [reflexivity|].
  exact (mixed_load_write_or_read (small_settings (1 # 2)) demo_tape
           [alice; bob] alice eq_refl).
Defined.

Lemma ratio_one_all_writes_witness :
  (0 < KEY_POOL_SIZE (small_settings 1))%N
  ∧ (PUT_RATIO (small_settings 1) == 1)%Q
  ∧ let w := imported (small_settings 1) demo_tape in
    let rs := requests (events (run_schedule (small_settings 1) hundred w)) in
    Forall (λ r, ∃ key value,
              r = put_of key value ∧ key ∈ key_pool w ∧ value ∈ value_pool w) rs
    ∧ length rs = length hundred
    ∧ count_method POST rs = length hundred
    ∧ count_method GET rs = 0.
Proof.
  split; [reflexivity|]. split; [reflexivity|].
  exact (ratio_one_all_writes (small_settings 1) demo_tape hundred
           eq_refl (Qeq_refl 1)).
Defined.

Lemma ratio_zero_all_reads_witness :
  (0 < KEY_POOL_SIZE (small_settings 0))%N
  ∧ (PUT_RATIO (small_settings 0) == 0)%Q
  ∧ let w := imported (small_settings 0) demo_tape in
    let rs := requests (events (run_schedule (small_settings 0) hundred w)) in
    Forall (λ r, ∃ key, r = get_of key ∧ key ∈ key_pool w) rs
    ∧ length rs = length hundred
    ∧ count_method GET rs = length hundred
    ∧ count_method POST rs = 0.
Proof.
  split; [reflexivity|]. split; [reflexivity|].
  exact (ratio_zero_all_reads (small_settings 0) demo_tape hundred
           eq_refl (Qeq_refl 0)).
Defined.

Lemma one_request_per_invocation_witness :
  (0 < KEY_POOL_SIZE (small_settings (1 # 2)))%N
  ∧ let w := world_after (small_settings (1 # 2)) demo_tape [alice; bob] in
    let o := mixed_load (small_settings (1 # 2)) bob w in
    result o = Returned ()
    ∧ (∃ r, requests (events o) = [r] ∧ last (events o) = Some (Sent bob r))
    ∧ length (requests (events o)) = 1
    ∧ final o = set_entropy (entropy (final o)) w.
Proof.
  split; [reflexivity|].
  exact (one_request_per_invocation (small_settings (1 # 2)) demo_tape
           [alice; bob] bob eq_refl).
Defined.

Lemma request_shapes_witness :
  (0 < KEY_POOL_SIZE (small_settings (1 # 2)))%N
  ∧ same_pools (imported (small_settings (1 # 2)) demo_tape)
      (imported (small_settings (1 # 2)) demo_tape)
  ∧ let d1 := random_randbelow (length (key_pool (imported (small_settings (1 # 2)) demo_tape)))
                (entropy (imported (small_settings (1 # 2)) demo_tape)) in
    let d2 := random_randbelow (length (value_pool (imported (small_settings (1 # 2)) demo_tape)))
                d1.2 in
    let d0 := random_random (entropy (imported (small_settings (1 # 2)) demo_tape)) in
    (∃ key value r,
        key_pool (imported (small_settings (1 # 2)) demo_tape) !! d1.1 = Some key
        ∧ value_pool (imported (small_settings (1 # 2)) demo_tape) !! d2.1 = Some value
        ∧ requests (events (put_request alice (imported (small_settings (1 # 2)) demo_tape))) = [r]
        ∧ write_request key value r)
    ∧ (∃ key r,
          key_pool (imported (small_settings (1 # 2)) demo_tape) !! d1.1 = Some key
          ∧ requests (events (get_request alice (imported (small_settings (1 # 2)) demo_tape))) = [r]
          ∧ read_request key r)
    ∧ requests (events (mixed_load (small_settings (1 # 2)) alice
                          (imported (small_settings (1 # 2)) demo_tape)))
      = requests (events ((if float_lt d0.1 (PUT_RATIO (small_settings (1 # 2)))
                           then put_request alice
                           else get_request alice)
                            (set_entropy d0.2 (imported (small_settings (1 # 2)) demo_tape))))
    ∧ Forall (λ r, match method r with
                   | POST => write_shape r
                   | GET => read_shape r
                   end)
        (requests (events (run_schedule (small_settings (1 # 2)) [alice; bob]
                             (imported (small_settings (1 # 2)) demo_tape)))).
Proof.
  split; [reflexivity|]. split; [exact (conj eq_refl eq_refl)|].
  exact (request_shapes (small_settings (1 # 2)) demo_tape [alice; bob] alice
           (imported (small_settings (1 # 2)) demo_tape)
           eq_refl (conj eq_refl eq_refl)).
Defined.

Lemma request_determined_by_draws_witness :
  PUT_RATIO (small_settings (1 # 2)) = PUT_RATIO module_settings
  ∧ key_pool world_one = key_pool world_two
  ∧ value_pool world_one = value_pool world_two
  ∧ draws (events (mixed_load (small_settings (1 # 2)) alice world_one))
    = draws (events (mixed_load module_settings bob world_two))
  ∧ requests (events (mixed_load (small_settings (1 # 2)) alice world_one))
    = requests (events (mixed_load module_settings bob world_two)).
Proof.
  assert (Hd : draws (events (mixed_load (small_settings (1 # 2)) alice world_one))
               = draws (events (mixed_load module_settings bob world_two)))
    by (vm_compute; reflexivity).
  split; [reflexivity|]. split; [reflexivity|]. split; [reflexivity|].
  split; [exact Hd|].
  exact (request_determined_by_draws (small_settings (1 # 2)) module_settings
           world_one world_two alice bob eq_refl eq_refl eq_refl Hd).
Defined.

(** * Further properties of the generator *)

(** ** An invocation in any world *)

Section Edges.
Context {G : Type} `{Entropy G}.

(** X1: in any world an invocation of [mixed_load] hands at most one request to
    the client.  It returns normally exactly when it handed one, and raises
    [IndexError] exactly when it handed none, which it only does when a pool
    is empty; it raises nothing else. *)
Theorem mixed_load_one_request_or_IndexError cfg self (w : World G) :
  let o := mixed_load cfg self w in
  (length (requests (events o)) ≤ 1)%nat
  ∧ (result o = Returned () ↔ length (requests (events o)) = 1)
  ∧ (result o = Raised IndexError ↔ requests (events o) = [])
  ∧ (result o = Raised IndexError → key_pool w = [] ∨ value_pool w = [])
  ∧ result o ≠ Raised ValueError.
Proof.
  intros o. subst o.
  destruct (mixed_load_requests cfg self w)
    as [(i & j & key & value & _ & _ & _ & _ & -> & ->)
       |[(i & key & _ & _ & Hkey & -> & ->)
        |[(_ & Hk & -> & ->)|(i & key & _ & _ & _ & Hv & -> & ->)]]];
    cbn [length]; split_and!; try done; try lia; try (split; done); auto.
Qed.

(** X2: with a pool size of zero both pools are empty; every invocation draws
    its float, raises [IndexError] at the choice of the key and hands
    nothing to the client, so that a run, of any length, makes no request. *)
Theorem empty_pools_no_request cfg (g : G) schedule self :
  KEY_POOL_SIZE cfg = 0%N →
  let w := world_after cfg g schedule in
  let o := mixed_load cfg self w in
  key_pool w = [] ∧ value_pool w = []
  ∧ result o = Raised IndexError
  ∧ events o = [Drew (Float (random_random (entropy w)).1)]
  ∧ requests (events (run_schedule cfg schedule (imported cfg g))) = [].
Proof.
  intros Hn w o.
  destruct (imported_pools cfg g) as [Hlk Hlv]. rewrite Hn in Hlk, Hlv.
  apply length_zero_iff_nil in Hlk, Hlv.
  assert (Hsame : ∀ w', same_pools (imported cfg g) w' → key_pool w' = []).
  { intros w' [Hk _]. congruence. }
  destruct (world_after_pools cfg g schedule) as [Hk Hv]. fold w in Hk, Hv.
  assert (Hkw : key_pool w = []) by congruence.
  split_and!; [done|congruence| | |].
  - subst o. rewrite mixed_load_unfold. cbn [result].
    destruct (float_lt _ _);
      [by rewrite put_request_no_keys|by rewrite get_request_no_keys].
  - subst o. rewrite mixed_load_unfold. cbn [events].
    destruct (float_lt _ _);
      [by rewrite put_request_no_keys|by rewrite get_request_no_keys].
  - assert (HF : Forall (λ _, False)
                   (requests (events (run_schedule cfg schedule (imported cfg g)))));
      [|destruct (requests _) as [|r rs];
        [done|by apply Forall_cons_1 in HF as [[] _]]].
    apply (run_schedule_Forall cfg (λ _, False) schedule (imported cfg g)); [|done].
    intros self' w' Hw'.
    destruct (mixed_load_requests cfg self' w')
      as [(i & j & key & value & _ & _ & Hkey & _)
         |[(i & key & _ & _ & Hkey & _)
          |[(_ & _ & -> & _)|(i & key & _ & _ & Hkey & _)]]];
      [rewrite (Hsame w' Hw') in Hkey; by rewrite lookup_nil in Hkey..
      |constructor
      |rewrite (Hsame w' Hw') in Hkey; by rewrite lookup_nil in Hkey].
Qed.

(** ** A ratio outside the unit interval *)

Lemma run_all_writes cfg (g : G) schedule :
  (0 < KEY_POOL_SIZE cfg)%N →
  (∀ w : World G, float_lt (random_random (entropy w)).1 (PUT_RATIO cfg) = true) →
  let w := imported cfg g in
  let rs := requests (events (run_schedule cfg schedule w)) in
  Forall (λ r, ∃ key value,
            r = put_of key value ∧ key ∈ key_pool w ∧ value ∈ value_pool w) rs
  ∧ count_method POST rs = length schedule
  ∧ count_method GET rs = 0.
Proof.
  intros Hn Hlt w rs.
  assert (Hstep : ∀ self w', same_pools w w' →
            ∃ key value,
              requests (events (mixed_load cfg self w')) = [put_of key value]
              ∧ key ∈ key_pool w ∧ value ∈ value_pool w).
  { intros self w' Hw'. pose proof Hw' as [Hk Hv].
    destruct (pools_nonempty cfg g w' Hn Hw') as [Hke Hve].
    specialize (Hlt w').
    destruct (mixed_load_requests cfg self w')
      as [(i & j & key & value & _ & _ & Hkey & Hvalue & Hreq & _)
         |[(i & key & _ & Hge & _)|[(_ & He & _)|(i & key & _ & _ & _ & He & _)]]];
      [|congruence|done|done].
    exists key, value. rewrite <- Hk, <- Hv.
    split_and!; [done|by eapply list_elem_of_lookup_2..]. }
  subst rs. split_and!.
  - apply (run_schedule_Forall cfg _ schedule w); [|done].
    intros self w' Hw'. destruct (Hstep self w' Hw') as (key & value & -> & ? & ?).
    apply Forall_singleton. by exists key, value.
  - rewrite (run_schedule_count cfg POST 1 schedule w); [lia| |done].
    intros self w' Hw'. by destruct (Hstep self w' Hw') as (key & value & -> & _).
  - rewrite (run_schedule_count cfg GET 0 schedule w); [lia| |done].
    intros self w' Hw'. by destruct (Hstep self w' Hw') as (key & value & -> & _).
Qed.

Lemma run_all_reads cfg (g : G) schedule :
  (0 < KEY_POOL_SIZE cfg)%N →
  (∀ w : World G, float_lt (random_random (entropy w)).1 (PUT_RATIO cfg) = false) →
  let w := imported cfg g in
  let rs := requests (events (run_schedule cfg schedule w)) in
  Forall (λ r, ∃ key, r = get_of key ∧ key ∈ key_pool w) rs
  ∧ count_method GET rs = length schedule
  ∧ count_method POST rs = 0.
Proof.
  intros Hn Hge w rs.
  assert (Hstep : ∀ self w', same_pools w w' →
            ∃ key, requests (events (mixed_load cfg self w')) = [get_of key]
                   ∧ key ∈ key_pool w).
  { intros self w' Hw'. pose proof Hw' as [Hk Hv].
    destruct (pools_nonempty cfg g w' Hn Hw') as [Hke Hve].
    specialize (Hge w').
    destruct (mixed_load_requests cfg self w')
      as [(i & j & key & value & _ & Hlt & _)
         |[(i & key & _ & _ & Hkey & Hreq & _)
          |[(_ & He & _)|(i & key & _ & Hlt & _)]]];
      [congruence| |done|congruence].
    exists key. rewrite <- Hk. split; [done|by eapply list_elem_of_lookup_2]. }
  subst rs. split_and!.
  - apply (run_schedule_Forall cfg _ schedule w); [|done].
    intros self w' Hw'. destruct (Hstep self w' Hw') as (key & -> & ?).
    apply Forall_singleton. by exists key.
  - rewrite (run_schedule_count cfg GET 1 schedule w); [lia| |done].
    intros self w' Hw'. by destruct (Hstep self w' Hw') as (key & -> & _).
  - rewrite (run_schedule_count cfg POST 0 schedule w); [lia| |done].
    intros self w' Hw'. by destruct (Hstep self w' Hw') as (key & -> & _).
Qed.

(** X3: the ratio is compared with the float as it is, with no check and no
    clamping: under any [PUT_RATIO] of one or more, every invocation of a
    run is a write of a key and a value of the pools. *)
Theorem ratio_above_one_all_writes cfg (g : G) schedule :
  (0 < KEY_POOL_SIZE cfg)%N → (1 <= PUT_RATIO cfg)%Q →
  let w := imported cfg g in
  let rs := requests (events (run_schedule cfg schedule w)) in
  Forall (λ r, ∃ key value,
            r = put_of key value ∧ key ∈ key_pool w ∧ value ∈ value_pool w) rs
  ∧ count_method POST rs = length schedule
  ∧ count_method GET rs = 0.
Proof.
  intros Hn Hr. apply run_all_writes; [done|].
  intros w. apply float_lt_iff.
  eapply Qlt_le_trans; [apply random_random_range|done].
Qed.

(** X4: under any [PUT_RATIO] of zero or less, negative ones too, every
    invocation of a run is a read of a key of the pool. *)
Theorem ratio_below_zero_all_reads cfg (g : G) schedule :
  (0 < KEY_POOL_SIZE cfg)%N → (PUT_RATIO cfg <= 0)%Q →
  let w := imported cfg g in
  let rs := requests (events (run_schedule cfg schedule w)) in
  Forall (λ r, ∃ key, r = get_of key ∧ key ∈ key_pool w) rs
  ∧ count_method GET rs = length schedule
  ∧ count_method POST rs = 0.
Proof.
  intros Hn Hr. apply run_all_reads; [done|].
  intros w. destruct (float_lt _ _) eqn:Hlt; [|done].
  apply float_lt_iff in Hlt.
  destruct (random_random_range (entropy w)) as [Hlo _].
  exfalso. apply (Qlt_irrefl 0).
  eapply Qle_lt_trans; [exact Hlo|]. by eapply Qlt_le_trans.
Qed.

(** ** Names and senders of the requests *)

(** X5: every request of a run, from any world, is named after its endpoint
    alone, [/put] for a write and [/get] for a read: the key of a read is in
    its URL and not in its name, so the harness files all reads under one
    name. *)
Theorem request_names cfg schedule (w : World G) :
  Forall (λ r, name r = match method r with POST => "/put" | GET => "/get" end
               ∧ (method r = GET → name r ≠ url r))
    (requests (events (run_schedule cfg schedule w))).
Proof.
  eapply Forall_impl; [apply run_request_shape|].
  intros r [(key & value & -> & _)|(key & -> & _)]; [done|].
  split; [done|]. intros _ Heq. discriminate Heq.
Qed.

Lemma mixed_load_sender cfg self (w : World G) :
  key_pool w ≠ [] → value_pool w ≠ [] →
  omap sender (events (mixed_load cfg self w)) = [self].
Proof.
  intros Hk Hv. destruct (mixed_load_spec cfg self w Hk Hv) as [Hput Hget].
  destruct (Qlt_le_dec (random_random (entropy w)).1 (PUT_RATIO cfg)) as [Hlt|Hge].
  - destruct (Hput Hlt) as (key & value & _ & _ & ->). done.
  - destruct (Hget (Qle_not_lt _ _ Hge)) as (key & _ & ->). done.
Qed.

(** X6: with pools that are not empty, the requests of a run are handed, in
    order, to the clients of the users of the schedule: the request of an
    invocation goes to the client of the user that runs it, and to no
    other. *)
Theorem run_senders cfg (g : G) schedule :
  (0 < KEY_POOL_SIZE cfg)%N →
  omap sender (events (run_schedule cfg schedule (imported cfg g))) = schedule.
Proof.
  intros Hn.
  assert (Hgen : ∀ w', same_pools (imported cfg g) w' →
            omap sender (events (run_schedule cfg schedule w')) = schedule);
    [|by apply Hgen].
  induction schedule as [|self rest IH]; intros w' Hw'; [done|].
  rewrite run_schedule_cons. cbn [events]. rewrite omap_app.
  destruct (pools_nonempty cfg g w' Hn Hw') as [Hk Hv].
  rewrite mixed_load_sender by done.
  rewrite IH by by apply same_pools_step. done.
Qed.

End Edges.

(** ** What the import draws *)



Section Draws.
Context {G : Type} `{Entropy G}.




End Draws.

(** ** The format of the keys *)

Lemma hex_acc_get w : ∀ n acc p,
  String.get p (hex_acc w n acc)
  = if decide (p < w)
    then Some (hexdigit ((n / 16 ^ Z.of_nat (w - 1 - p)) mod 16))
    else String.get (p - w) acc.
Proof.
  induction w as [|w IH]; intros n acc p; cbn [hex_acc].
  - rewrite decide_False by lia. by rewrite Nat.sub_0_r.
  - rewrite IH. destruct (decide (p < w)) as [Hlt|Hge].
    + rewrite decide_True by lia. do 2 f_equal.
      rewrite Z.div_div by (try apply Z.pow_pos_nonneg; lia).
      replace (Z.of_nat (S w - 1 - p)) with (Z.succ (Z.of_nat (w - 1 - p))) by lia.
      by rewrite Z.pow_succ_r by lia.
    + destruct (decide (p = w)) as [->|Hne].
      * rewrite decide_True by lia. rewrite Nat.sub_diag. cbn [String.get].
        replace (S w - 1 - w) with 0 by lia. by rewrite Z.div_1_r.
      * rewrite decide_False by lia.
        replace (p - w) with (S (p - S w)) by lia. done.
Qed.

Lemma UUID_str_get (int : Z) :
  let hex := format_032x int in
  String.get 8 (UUID_str int) = Some "-"%char
  ∧ String.get 13 (UUID_str int) = Some "-"%char
  ∧ String.get 18 (UUID_str int) = Some "-"%char
  ∧ String.get 23 (UUID_str int) = Some "-"%char
  ∧ String.get 14 (UUID_str int) = String.get 12 hex
  ∧ String.get 19 (UUID_str int) = String.get 16 hex.
Proof.
  intros hex. unfold UUID_str. fold hex.
  pose proof (format_032x_length int) as Hlen. fold hex in Hlen.
  rewrite Hlen. clearbody hex.
  do 32 (destruct hex as [|? hex]; [discriminate|]).
  destruct hex; [by repeat split|discriminate].
Qed.

Lemma UUID_version_variant bytes int :
  UUID bytes 4 = Returned int →
  ((int / 2 ^ 76) mod 16 = 4)%Z ∧ (8 <= (int / 2 ^ 60) mod 16 < 12)%Z.
Proof.
  intros HU. pose proof (UUID_range _ _ _ HU) as Hrange. revert HU.
  unfold UUID. destruct (negb (Nat.eqb _ _)); [done|].
  destruct (negb (_ && _)); [done|]. cbn [negb andb Z.leb Z.compare].
  intros [= Hint].
  set (x := int_from_bytes bytes) in *.
  assert (Hversion : Z.land (Z.shiftr int 76) (Z.ones 4) = 4%Z).
  { apply Z.bits_inj'. intros k Hk.
    rewrite Z.land_spec, Z.shiftr_spec by done.
    destruct (Z.lt_ge_cases k 4) as [Hlt|Hge].
    - rewrite <- Hint.
      rewrite Z.lor_spec, Z.land_spec, Z.lor_spec, Z.land_spec.
      assert (Hcases : (k = 0 ∨ k = 1 ∨ k = 2 ∨ k = 3)%Z) by lia.
      destruct Hcases as [-> | [-> | [-> | ->]]];
        generalize (Z.testbit x); intros b; vm_compute;
        match goal with |- context [b ?i] => by destruct (b i) end.
    - rewrite Z.ones_spec_high by lia.
      rewrite (Z_testbit_above 4 4 k) by lia. by rewrite andb_false_r. }
  assert (Hvariant : Z.land (Z.shiftr int 62) (Z.ones 2) = 2%Z).
  { apply Z.bits_inj'. intros k Hk.
    rewrite Z.land_spec, Z.shiftr_spec by done.
    destruct (Z.lt_ge_cases k 2) as [Hlt|Hge].
    - rewrite <- Hint.
      rewrite Z.lor_spec, Z.land_spec, Z.lor_spec, Z.land_spec.
      assert (Hcases : (k = 0 ∨ k = 1)%Z) by lia.
      destruct Hcases as [-> | ->];
        generalize (Z.testbit x); intros b; vm_compute;
        match goal with |- context [b ?i] => by destruct (b i) end.
    - rewrite Z.ones_spec_high by lia.
      rewrite (Z_testbit_above 2 2 k) by lia. by rewrite andb_false_r. }
  rewrite Z.land_ones, Z.shiftr_div_pow2 in Hversion, Hvariant by lia.
  change (2 ^ 4)%Z with 16%Z in Hversion. change (2 ^ 2)%Z with 4%Z in Hvariant.
  split; [done|].
  assert (Hdiv : (int / 2 ^ 62 = int / 2 ^ 60 / 4)%Z).
  { change (2 ^ 62)%Z with (2 ^ 60 * 4)%Z. symmetry.
    apply Z.div_div; first [reflexivity|by vm_compute|lia]. }
  rewrite Hdiv in Hvariant. revert Hvariant.
  generalize (int / 2 ^ 60)%Z. intros a Ha. clear - Ha.
  Z.to_euclidean_division_equations. lia.
Qed.

Lemma hexdigit_variant d :
  (8 <= d < 12)%Z → hexdigit d ∈ list_ascii_of_string "89ab".
Proof.
  intros Hd. assert (Hcases : (d = 8 ∨ d = 9 ∨ d = 10 ∨ d = 11)%Z) by lia.
  destruct Hcases as [-> | [-> | [-> | ->]]]; vm_compute;
    [left|right; left|do 2 right; left|do 3 right; left].
Qed.

Section KeyFormat.
Context {G : Type} `{Entropy G}.

(** X8: every key of the pool made at import is the text of a version-4 UUID:
    36 characters, lower-case hexadecimal digits but for dashes at the
    positions 8, 13, 18 and 23, with the version digit [4] at position 14
    and a variant digit among [8], [9], [a] and [b] at position 19. *)
Theorem keys_are_uuid4_texts cfg (g : G) :
  Forall uuid4_shaped (key_pool (imported cfg g)).
Proof.
  eapply Forall_impl; [apply imported_keys_uuid|].
  intros key (bs & int & HU & ->).
  destruct (UUID_str_get int) as (H8 & H13 & H18 & H23 & H14 & H19).
  destruct (UUID_version_variant bs int HU) as [Hversion Hvariant].
  unfold uuid4_shaped. split_and!; [apply UUID_str_length| |done..| |].
  - unfold UUID_str. rewrite undash_layout by apply format_032x_length.
    apply hex_acc_chars. constructor.
  - rewrite H14. unfold format_032x. rewrite hex_acc_get.
    rewrite decide_True by lia.
    change (16 ^ Z.of_nat (32 - 1 - 12))%Z with (2 ^ 76)%Z. by rewrite Hversion.
  - exists (hexdigit ((int / 2 ^ 60) mod 16)). split; [|by apply hexdigit_variant].
    rewrite H19. unfold format_032x. rewrite hex_acc_get.
    by rewrite decide_True by lia.
Qed.

End KeyFormat.

(** ** Values of no character *)

Section Blank.
Context {G : Type} `{Entropy G}.

(** X9: with a [VALUE_LENGTH] of zero the join of no character makes every
    value of the pool the empty string, and every write of a run carries
    the empty string as its value. *)
Theorem zero_length_values cfg (g : G) schedule :
  VALUE_LENGTH cfg = 0%N →
  let w := imported cfg g in
  Forall (λ v, v = EmptyString) (value_pool w)
  ∧ Forall (λ r, method r = POST → ∀ v, carries_value r v ↔ v = EmptyString)
      (requests (events (run_schedule cfg schedule w))).
Proof.
  intros Hlen w.
  destruct (CacheUser_spec cfg g) as (_ & _ & _ & _ & Hvalues).
  fold (imported cfg g) in Hvalues. fold w in Hvalues.
  assert (Hblank : Forall (λ v, v = EmptyString) (value_pool w)).
  { eapply Forall_impl; [exact Hvalues|]. intros v [Hv _].
    rewrite Hlen in Hv. by destruct v. }
  split; [done|].
  eapply Forall_impl; [apply run_request_shape|].
  intros r [(key & value & -> & _ & Hvalue)|(key & -> & _)]; [|done].
  intros _ v. apply (proj1 (Forall_forall _ _) Hblank) in Hvalue as ->.
  apply carries_value_put.
Qed.

End Blank.

(** ** The further properties on concrete runs *)

(** An invocation under [empty_settings], and a run of a hundred. *)
Example empty_settings_run :
  let w := imported empty_settings demo_tape in
  events (mixed_load empty_settings alice w)
  = [Drew (Float (8617416518479462 # 9007199254740992))]
  ∧ result (mixed_load empty_settings alice w) = Raised IndexError
  ∧ length (events (run_schedule empty_settings hundred w)) = 100
  ∧ requests (events (run_schedule empty_settings hundred w)) = []
  ∧ result (run_schedule empty_settings hundred w) = Returned ().
Proof. vm_compute. by repeat split. Qed.

Lemma empty_pools_no_request_witness :
  KEY_POOL_SIZE empty_settings = 0%N
  ∧ let w := world_after empty_settings demo_tape [alice; bob] in
    let o := mixed_load empty_settings alice w in
    key_pool w = [] ∧ value_pool w = []
    ∧ result o = Raised IndexError
    ∧ events o = [Drew (Float (random_random (entropy w)).1)]
    ∧ requests (events (run_schedule empty_settings [alice; bob]
                          (imported empty_settings demo_tape))) = [].
Proof.
  split; [reflexivity|].
  exact (empty_pools_no_request empty_settings demo_tape [alice; bob] alice eq_refl).
Defined.

Lemma ratio_above_one_all_writes_witness :
  (0 < KEY_POOL_SIZE (small_settings (3 # 2)))%N
  ∧ (1 <= PUT_RATIO (small_settings (3 # 2)))%Q
  ∧ let w := imported (small_settings (3 # 2)) demo_tape in
    let rs := requests (events (run_schedule (small_settings (3 # 2)) hundred w)) in
    Forall (λ r, ∃ key value,
              r = put_of key value ∧ key ∈ key_pool w ∧ value ∈ value_pool w) rs
    ∧ count_method POST rs = length hundred
    ∧ count_method GET rs = 0.
Proof.
  assert (Hr : (1 <= PUT_RATIO (small_settings (3 # 2)))%Q) by discriminate.
  split; [reflexivity|]. split; [exact Hr|].
  exact (ratio_above_one_all_writes (small_settings (3 # 2)) demo_tape hundred
           eq_refl Hr).
Defined.

Lemma ratio_below_zero_all_reads_witness :
  (0 < KEY_POOL_SIZE (small_settings (-1 # 4)))%N
  ∧ (PUT_RATIO (small_settings (-1 # 4)) <= 0)%Q
  ∧ let w := imported (small_settings (-1 # 4)) demo_tape in
    let rs := requests (events (run_schedule (small_settings (-1 # 4)) hundred w)) in
    Forall (λ r, ∃ key, r = get_of key ∧ key ∈ key_pool w) rs
    ∧ count_method GET rs = length hundred
    ∧ count_method POST rs = 0.
Proof.
  assert (Hr : (PUT_RATIO (small_settings (-1 # 4)) <= 0)%Q) by discriminate.
  split; [reflexivity|]. split; [exact Hr|].
  exact (ratio_below_zero_all_reads (small_settings (-1 # 4)) demo_tape hundred
           eq_refl Hr).
Defined.

Lemma run_senders_witness :
  (0 < KEY_POOL_SIZE (small_settings (1 # 2)))%N
  ∧ omap sender (events (run_schedule (small_settings (1 # 2)) hundred
                           (imported (small_settings (1 # 2)) demo_tape)))
    = hundred.
Proof.
  split; [reflexivity|].
  exact (run_senders (small_settings (1 # 2)) demo_tape hundred eq_refl).
Defined.

Lemma zero_length_values_witness :
  VALUE_LENGTH blank_settings = 0%N
  ∧ let w := imported blank_settings demo_tape in
    Forall (λ v, v = EmptyString) (value_pool w)
    ∧ Forall (λ r, method r = POST → ∀ v, carries_value r v ↔ v = EmptyString)
        (requests (events (run_schedule blank_settings hundred w))).
Proof.
  split; [reflexivity|].
  exact (zero_length_values blank_settings demo_tape hundred eq_refl).
Defined.
